(** * xterm.js [src/browser/Color.ts]: colour packing, blending and contrast

    A shallow embedding of the colour helpers of xterm.js.  JavaScript numbers
    are IEEE 754 binary64 values, modelled by Rocq's primitive [float]; the
    packed colour [rgba] is a 32-bit integer, modelled by [Z] with the
    wrap-around of the bitwise operators written out. *)

From Stdlib Require Import ZArith Floats String Ascii List Lia Bool HexString.
Import ListNotations.

Set Warnings "-inexact-float".

(** ** The JavaScript runtime operations used by [Color.ts] *)

Module JS.

Local Open Scope Z_scope.

Definition number := float.

(** The Number value of a mathematical integer (round to nearest, ties to
    even); exact for every integer below [2^53] in magnitude. *)
Definition of_Z (z : Z) : number :=
  SF2Prim (binary_normalize prec emax z 0 false).

(** [truncate x]: the integer part of a finite [x], rounded toward zero;
    [0] for NaN and the infinities, as in the first steps of ToInt32. *)
Definition truncate (x : number) : Z :=
  match Prim2SF x with
  | S754_finite s m e =>
      let t := if 0 <=? e then Z.shiftl (Z.pos m) e else Z.shiftr (Z.pos m) (- e) in
      if s then - t else t
  | _ => 0
  end.

(** Reduction modulo [2^32] into the signed and the unsigned 32-bit range. *)
Definition wrap_int32 (z : Z) : Z := (z + 2 ^ 31) mod 2 ^ 32 - 2 ^ 31.
Definition wrap_uint32 (z : Z) : Z := z mod 2 ^ 32.

Definition ToInt32 (x : number) : Z := wrap_int32 (truncate x).

(** The bitwise operators, on integer-valued operands.  Each operand goes
    through ToInt32 first; the shift counts used by the source are below 32. *)
Definition shr (x k : Z) : Z := Z.shiftr (wrap_int32 x) k.           (* x >> k *)
Definition shl (x k : Z) : Z := wrap_int32 (Z.shiftl (wrap_int32 x) k). (* x << k *)
Definition band (x y : Z) : Z := Z.land (wrap_int32 x) (wrap_int32 y). (* x & y *)
Definition bor (x y : Z) : Z := Z.lor (wrap_int32 x) (wrap_int32 y).   (* x | y *)
Definition ushr0 (x : Z) : Z := wrap_uint32 x.                        (* x >>> 0 *)

(** The signed mantissa of a finite number. *)
Definition signed (s : bool) (m : positive) : Z := if s then Z.neg m else Z.pos m.

(** A zero of the given sign. *)
Definition signed_zero (s : bool) : number := if s then PrimFloat.neg_zero else PrimFloat.zero.

(** [Math.floor], [Math.ceil] and [Math.round].  A number whose exponent is
    not negative is already integral; NaN, the infinities and the zeros are
    returned unchanged.  [Math.round] rounds a tie toward +infinity. *)
Definition Math_floor (x : number) : number :=
  match Prim2SF x with
  | S754_finite s m e =>
      if 0 <=? e then x
      else let r := Z.shiftr (signed s m) (- e) in
           if r =? 0 then PrimFloat.zero else of_Z r
  | _ => x
  end.

Definition Math_ceil (x : number) : number :=
  match Prim2SF x with
  | S754_finite s m e =>
      if 0 <=? e then x
      else let r := - Z.shiftr (- signed s m) (- e) in
           if r =? 0 then signed_zero s else of_Z r
  | _ => x
  end.

Definition Math_round (x : number) : number :=
  match Prim2SF x with
  | S754_finite s m e =>
      if 0 <=? e then x
      else let r := Z.shiftr (signed s m + 2 ^ (- e - 1)) (- e) in
           if r =? 0 then signed_zero s else of_Z r
  | _ => x
  end.

(** [Math.max] and [Math.min] of two numbers: NaN if either is NaN, and
    [+0] counts as larger than [-0]. *)
Definition Math_max (a b : number) : number :=
  if is_nan a || is_nan b then nan
  else if (a <? b)%float then b
  else if (b <? a)%float then a
  else if get_sign a then b else a.

Definition Math_min (a b : number) : number :=
  if is_nan a || is_nan b then nan
  else if (a <? b)%float then a
  else if (b <? a)%float then b
  else if get_sign a then a else b.

(** What a JavaScript engine is free to choose: the standard leaves the
    result of [Math.pow] and the digits [Number.prototype.toString(16)]
    prints for a number with a fractional part implementation-approximated. *)
Class Engine := {
  Math_pow : number -> number -> number;
  toString16_fractional : number -> string
}.

(** [c.toString(16)]: lower-case hexadecimal digits of an integral number. *)
Definition hex_of_Z (z : Z) : string :=
  match z with
  | Z0 => "0"
  | Z.pos p => HexString.Raw.of_pos p ""
  | Z.neg p => String "-"%char (HexString.Raw.of_pos p "")
  end.

Definition toString16 `{Engine} (c : number) : string :=
  match Prim2SF c with
  | S754_nan => "NaN"
  | S754_infinity s => if s then "-Infinity" else "Infinity"
  | S754_zero _ => "0"
  | S754_finite s m e =>
      if 0 <=? e then hex_of_Z (Z.shiftl (signed s m) e)
      else if Z.pos m mod 2 ^ (- e) =? 0 then hex_of_Z (signed s m / 2 ^ (- e))
      else toString16_fractional c
  end.

(** [s.slice(1)]: the string without its first character. *)
Definition slice1 (s : string) : string :=
  match s with
  | EmptyString => EmptyString
  | String _ t => t
  end.

(** [parseInt(s, 16)]: leading white space is skipped, then an optional sign
    and an optional [0x] or [0X]; the longest run of hexadecimal digits that
    follows is the value; NaN when there is none.  Strings are sequences of
    ASCII characters. *)
Definition is_white_space (c : ascii) : bool :=
  let n := N_of_ascii c in
  ((9 <=? n) && (n <=? 13) || (n =? 32))%N.

Fixpoint skip_white_space (s : string) : string :=
  match s with
  | String c t => if is_white_space c then skip_white_space t else s
  | EmptyString => s
  end.

Definition strip_sign (s : string) : bool * string :=
  match s with
  | String "-"%char t => (true, t)
  | String "+"%char t => (false, t)
  | _ => (false, s)
  end.

Definition strip_0x (s : string) : string :=
  match s with
  | String "0"%char (String "x"%char t) => t
  | String "0"%char (String "X"%char t) => t
  | _ => s
  end.

(** The value of the longest prefix of hexadecimal digits: [acc] is the value
    read so far, [None] as long as no digit was read. *)
Fixpoint hex_prefix (s : string) (acc : option Z) : option Z :=
  match s with
  | String c t =>
      match HexString.ascii_to_digit c with
      | Some d => hex_prefix t (Some (16 * match acc with Some a => a | None => 0 end + Z.of_N d))
      | None => acc
      end
  | EmptyString => acc
  end.

Definition parseInt16 (s : string) : number :=
  let (neg, s1) := strip_sign (skip_white_space s) in
  match hex_prefix (strip_0x s1) None with
  | None => nan
  | Some v => if neg then (- of_Z v)%float else of_Z v
  end.

End JS.

Import JS.

(** ** [browser/Types] *)

(** Modelled from the spec: the interface [IColor] of [browser/Types], which
    [Color.ts] imports: a colour is its textual form [css] ("#rrggbb") and its
    packed form [rgba], an unsigned 32-bit integer laid out [R:8][G:8][B:8][A:8]
    from the most to the least significant byte. *)
Record IColor := { css : string; rgba : Z }.

(** The bytes of a packed colour, as the data model lays them out. *)
Definition red_byte (v : Z) : Z := (v / 2 ^ 24) mod 256.
Definition green_byte (v : Z) : Z := (v / 2 ^ 16) mod 256.
Definition blue_byte (v : Z) : Z := (v / 2 ^ 8) mod 256.
Definition alpha_byte (v : Z) : Z := v mod 256.

(** ** Loops *)

(** [while (cond) body], run for at most [fuel] iterations: [None] when the
    condition still holds after [fuel] iterations. *)
Fixpoint while {S : Type} (fuel : nat) (cond : S -> bool) (body : S -> S) (s : S)
  : option S :=
  if cond s then
    match fuel with
    | O => None
    | Datatypes.S n => while n cond body (body s)
    end
  else Some s.

(** The variables the loops of [reduceLuminance] and [increaseLuminance]
    assign. *)
Record vars := { fgR : number; fgG : number; fgB : number; cr : number }.

(** ** [Color.ts] *)

Section Color.

Context `{E : Engine}.

Local Open Scope float_scope.

Definition toPaddedHex (c : number) : string :=
  let s := toString16 c in
  if (String.length s <? 2)%nat then String "0"%char s else s.

Definition toCss (r g b : number) : string :=
  String "#"%char (toPaddedHex r ++ toPaddedHex g ++ toPaddedHex b).

(** [toRgba(r, g, b, a = 0xFF)]: the callers in this file all leave [a] out,
    and pass [255] here. *)
Definition toRgba (r g b a : number) : Z :=
  ushr0 (bor (bor (bor (shl (truncate r) 24) (shl (truncate g) 16))
                  (shl (truncate b) 8))
             (truncate a)).

Definition blend (bg fg : IColor) : IColor :=
  let a := of_Z (band (rgba fg) 255) / 255 in
  if a =? 1 then
    {| css := css fg; rgba := rgba fg |}
  else
    let fgR := of_Z (band (shr (rgba fg) 24) 255) in
    let fgG := of_Z (band (shr (rgba fg) 16) 255) in
    let fgB := of_Z (band (shr (rgba fg) 8) 255) in
    let bgR := of_Z (band (shr (rgba bg) 24) 255) in
    let bgG := of_Z (band (shr (rgba bg) 16) 255) in
    let bgB := of_Z (band (shr (rgba bg) 8) 255) in
    let r := bgR + Math_round ((fgR - bgR) * a) in
    let g := bgG + Math_round ((fgG - bgG) * a) in
    let b := bgB + Math_round ((fgB - bgB) * a) in
    {| css := toCss r g b; rgba := toRgba r g b 255 |}.

Definition fromCss (s : string) : IColor :=
  {| css := s;
     rgba := ushr0 (bor (shl (truncate (parseInt16 (slice1 s))) 8) 255) |}.

Definition rgbRelativeLuminance2 (r g b : number) : number :=
  let rs := r / 255 in
  let gs := g / 255 in
  let bs := b / 255 in
  let rr := if rs <=? 0.03928 then rs / 12.92 else Math_pow ((rs + 0.055) / 1.055) 2.4 in
  let rg := if gs <=? 0.03928 then gs / 12.92 else Math_pow ((gs + 0.055) / 1.055) 2.4 in
  let rb := if bs <=? 0.03928 then bs / 12.92 else Math_pow ((bs + 0.055) / 1.055) 2.4 in
  rr * 0.2126 + rg * 0.7152 + rb * 0.0722.

Definition rgbRelativeLuminance (rgb : Z) : number :=
  rgbRelativeLuminance2
    (of_Z (band (shr rgb 16) 255))
    (of_Z (band (shr rgb 8) 255))
    (of_Z (band rgb 255)).

Definition contrastRatio (l1 l2 : number) : number :=
  if l1 <? l2 then (l2 + 0.05) / (l1 + 0.05)
  else (l1 + 0.05) / (l2 + 0.05).

(** The colour both loops return: [{css: toCss(fgR, fgG, fgB), rgba:
    toRgba(fgR, fgG, fgB)}]. *)
Definition color_of_vars (s : vars) : IColor :=
  {| css := toCss (fgR s) (fgG s) (fgB s);
     rgba := toRgba (fgR s) (fgG s) (fgB s) 255 |}.

(** The variables as the statements before either loop leave them. *)
Definition loop_init (bgR bgG bgB : number) (fg : IColor) : vars :=
  let fgR := of_Z (band (shr (rgba fg) 24) 255) in
  let fgG := of_Z (band (shr (rgba fg) 16) 255) in
  let fgB := of_Z (band (shr (rgba fg) 8) 255) in
  {| fgR := fgR; fgG := fgG; fgB := fgB;
     cr := contrastRatio (rgbRelativeLuminance2 fgR fgB fgG)
                         (rgbRelativeLuminance2 bgR bgG bgB) |}.

Definition reduce_cond (ratio : number) (s : vars) : bool :=
  (cr s <? ratio) && ((0 <? fgR s) || (0 <? fgG s) || (0 <? fgB s)).

Definition reduce_body (bgR bgG bgB : number) (s : vars) : vars :=
  let fgR := fgR s - Math_max 0 (Math_ceil (fgR s * 0.1)) in
  let fgG := fgG s - Math_max 0 (Math_ceil (fgG s * 0.1)) in
  let fgB := fgB s - Math_max 0 (Math_ceil (fgB s * 0.1)) in
  {| fgR := fgR; fgG := fgG; fgB := fgB;
     cr := contrastRatio (rgbRelativeLuminance2 fgR fgB fgG)
                         (rgbRelativeLuminance2 bgR bgG bgB) |}.

Definition reduceLuminance (fuel : nat) (bg fg : IColor) (ratio : number)
  : option IColor :=
  let bgR := of_Z (band (shr (rgba bg) 24) 255) in
  let bgG := of_Z (band (shr (rgba bg) 16) 255) in
  let bgB := of_Z (band (shr (rgba bg) 8) 255) in
  option_map color_of_vars
    (while fuel (reduce_cond ratio) (reduce_body bgR bgG bgB)
       (loop_init bgR bgG bgB fg)).

Definition increase_cond (ratio : number) (s : vars) : bool :=
  (cr s <? ratio) && ((fgR s <? 255) || (fgG s <? 255) || (fgB s <? 255)).

Definition increase_body (bgR bgG bgB : number) (s : vars) : vars :=
  let fgR := Math_min 255 (fgR s + Math_floor ((255 - fgR s) * 0.1)) in
  let fgG := Math_min 255 (fgG s + Math_floor ((255 - fgG s) * 0.1)) in
  let fgB := Math_min 255 (fgB s + Math_floor ((255 - fgB s) * 0.1)) in
  {| fgR := fgR; fgG := fgG; fgB := fgB;
     cr := contrastRatio (rgbRelativeLuminance2 fgR fgB fgG)
                         (rgbRelativeLuminance2 bgR bgG bgB) |}.

Definition increaseLuminance (fuel : nat) (bg fg : IColor) (ratio : number)
  : option IColor :=
  let bgR := of_Z (band (shr (rgba bg) 24) 255) in
  let bgG := of_Z (band (shr (rgba bg) 16) 255) in
  let bgB := of_Z (band (shr (rgba bg) 8) 255) in
  option_map color_of_vars
    (while fuel (increase_cond ratio) (increase_body bgR bgG bgB)
       (loop_init bgR bgG bgB fg)).

(** [ensureContrastRatio]: [Some None] is the result [undefined]; the outer
    [None] says that the loop it entered did not finish within [fuel]
    iterations. *)
Definition ensureContrastRatio (fuel : nat) (bg fg : IColor) (ratio : number)
  : option (option IColor) :=
  let bgL := rgbRelativeLuminance (shr (rgba bg) 8) in
  let fgL := rgbRelativeLuminance (shr (rgba fg) 8) in
  let cr := contrastRatio bgL fgL in
  if cr <? ratio then
    if fgL <? bgL then option_map Some (reduceLuminance fuel bg fg ratio)
    else option_map Some (increaseLuminance fuel bg fg ratio)
  else Some None.

End Color.

(** ** A sample engine

    One admissible choice for what the standard leaves open, used to run the
    functions on concrete colours: [Math.pow] as [exp (y * ln x)] by power
    series, and the exact hexadecimal expansion of a fractional number. *)

Module Sample.

Local Open Scope float_scope.

(** [sum_{k<n} p z2^k / (j + 2k)], the series of [atanh]. *)
Fixpoint atanh_series (n : nat) (z2 p j acc : number) : number :=
  match n with
  | O => acc
  | S n' => atanh_series n' z2 (p * z2) (j + 2) (acc + p / j)
  end.

Definition ln (x : number) : number :=
  let z := (x - 1) / (x + 1) in
  2 * atanh_series 400 (z * z) z 1 0.

(** [sum_{k<n} t^k / k!]. *)
Fixpoint exp_series (n : nat) (t term j acc : number) : number :=
  match n with
  | O => acc
  | S n' => exp_series n' t (term * t / j) (j + 1) (acc + term)
  end.

Definition exp (t : number) : number := exp_series 120 t 1 1 0.

Definition pow (x y : number) : number :=
  if x <=? 0 then 0 else exp (y * ln x).

(** The hexadecimal digits of [f / 2^k], for [0 <= f < 2^k]. *)
Fixpoint fraction_digits (n : nat) (f k : Z) : string :=
  match n with
  | O => EmptyString
  | S n' =>
      if (f =? 0)%Z then EmptyString
      else String (match Z.shiftr (16 * f) k with
                   | Z.pos d => match HexString.Raw.of_pos d "" with
                                | String c _ => c
                                | EmptyString => "0"%char
                                end
                   | _ => "0"%char
                   end)
                  (fraction_digits n' ((16 * f) mod 2 ^ k) k)
  end.

Definition toString16_exact (c : number) : string :=
  match Prim2SF c with
  | S754_finite s m e =>
      ((if s then "-" else "") ++ hex_of_Z (Z.shiftr (Z.pos m) (- e)) ++ "."
         ++ fraction_digits 300 (Z.pos m mod 2 ^ (- e)) (- e))%string
  | _ => EmptyString
  end.

#[export] Instance engine : Engine :=
  {| Math_pow := pow; toString16_fractional := toString16_exact |}.

End Sample.

(** ** Notions the statements below use *)

Local Open Scope Z_scope.

(** A colour with the given channel bytes. *)
Definition pack (r g b a : Z) : Z := r * 2 ^ 24 + g * 2 ^ 16 + b * 2 ^ 8 + a.

(** Rounding of the rational [n / d], [0 < d], to a nearest integer: a tie
    goes away from zero, or to the even neighbour. *)
Definition round_half_away (n d : Z) : Z :=
  Z.sgn n * ((2 * Z.abs n + d) / (2 * d)).

Definition round_half_even (n d : Z) : Z :=
  let q := n / d in
  match 2 * (n mod d) ?= d with
  | Lt => q
  | Gt => q + 1
  | Eq => if Z.even q then q else q + 1
  end.

(** The strings of the pattern [#[0-9a-f]{6}]. *)
Definition is_lower_hex (c : ascii) : bool :=
  let n := N_of_ascii c in
  ((48 <=? n) && (n <=? 57) || (97 <=? n) && (n <=? 102))%N.

Definition is_css_rgb (s : string) : bool :=
  match s with
  | String "#"%char (String a (String b (String c (String d (String e (String f
      EmptyString)))))) =>
      is_lower_hex a && is_lower_hex b && is_lower_hex c
      && is_lower_hex d && is_lower_hex e && is_lower_hex f
  | _ => false
  end.

(** A number that is not NaN. *)
Definition is_number (x : number) : bool := negb (is_nan x).

(** [Math.max] and [Math.min] as the claims use them, on numbers. *)
Definition fmax (a b : number) : number := Math_max a b.
Definition fmin (a b : number) : number := Math_min a b.

(** [p] holds of [0], ..., [n - 1]. *)
Fixpoint forall_below (n : nat) (p : Z -> bool) : bool :=
  match n with
  | O => true
  | S k => p (Z.of_nat k) && forall_below k p
  end.

(** [p] holds of every byte, and of every difference of two bytes. *)
Definition forall_byte (p : Z -> bool) : bool := forall_below 256 p.
Definition forall_diff (p : Z -> bool) : bool :=
  forall_below 511 (fun z => p (z - 255)).

(** The loop variables with green and blue exchanged. *)
Definition swap_gb (s : vars) : vars :=
  {| fgR := fgR s; fgG := fgB s; fgB := fgG s; cr := cr s |}.

Section Variants.

Context `{E : Engine}.

Local Open Scope float_scope.

(** The contrast of the loop variables against the background with every
    luminance call in the canonical (R, G, B) order. *)
Definition canonical_cr (bgR bgG bgB fgR fgG fgB : number) : number :=
  contrastRatio (rgbRelativeLuminance2 fgR fgG fgB)
                (rgbRelativeLuminance2 bgR bgG bgB).

(** The loop bodies with the foreground's luminance taken in the canonical
    order. *)
Definition reduce_body_canonical (bgR bgG bgB : number) (s : vars) : vars :=
  let fgR := fgR s - Math_max 0 (Math_ceil (fgR s * 0.1)) in
  let fgG := fgG s - Math_max 0 (Math_ceil (fgG s * 0.1)) in
  let fgB := fgB s - Math_max 0 (Math_ceil (fgB s * 0.1)) in
  {| fgR := fgR; fgG := fgG; fgB := fgB;
     cr := canonical_cr bgR bgG bgB fgR fgG fgB |}.

Definition increase_body_canonical (bgR bgG bgB : number) (s : vars) : vars :=
  let fgR := Math_min 255 (fgR s + Math_floor ((255 - fgR s) * 0.1)) in
  let fgG := Math_min 255 (fgG s + Math_floor ((255 - fgG s) * 0.1)) in
  let fgB := Math_min 255 (fgB s + Math_floor ((255 - fgB s) * 0.1)) in
  {| fgR := fgR; fgG := fgG; fgB := fgB;
     cr := canonical_cr bgR bgG bgB fgR fgG fgB |}.

(** The variables before the loop when that first luminance call is in the
    canonical order. *)
Definition loop_init_canonical (bgR bgG bgB : number) (fg : IColor) : vars :=
  let fgR := of_Z (band (shr (rgba fg) 24) 255) in
  let fgG := of_Z (band (shr (rgba fg) 16) 255) in
  let fgB := of_Z (band (shr (rgba fg) 8) 255) in
  {| fgR := fgR; fgG := fgG; fgB := fgB;
     cr := canonical_cr bgR bgG bgB fgR fgG fgB |}.

(** [reduceLuminance] and [increaseLuminance] as the specification words
    them: green and blue exchanged in the recomputation inside the loop only,
    every luminance call outside the loop in the canonical order. *)
Definition reduceLuminance_as_worded (fuel : nat) (bg fg : IColor) (ratio : number)
  : option IColor :=
  let bgR := of_Z (band (shr (rgba bg) 24) 255) in
  let bgG := of_Z (band (shr (rgba bg) 16) 255) in
  let bgB := of_Z (band (shr (rgba bg) 8) 255) in
  option_map color_of_vars
    (while fuel (reduce_cond ratio) (reduce_body bgR bgG bgB)
       (loop_init_canonical bgR bgG bgB fg)).

Definition increaseLuminance_as_worded (fuel : nat) (bg fg : IColor) (ratio : number)
  : option IColor :=
  let bgR := of_Z (band (shr (rgba bg) 24) 255) in
  let bgG := of_Z (band (shr (rgba bg) 16) 255) in
  let bgB := of_Z (band (shr (rgba bg) 8) 255) in
  option_map color_of_vars
    (while fuel (increase_cond ratio) (increase_body bgR bgG bgB)
       (loop_init_canonical bgR bgG bgB fg)).

End Variants.

(** The channel updates of the two loops on a byte, as integers. *)
Definition reduce_step (z : Z) : Z := z - (z + 9) / 10.
Definition increase_step (z : Z) : Z := z + (255 - z) / 10.

(** The channels of the loop variables hold the bytes [r], [g], [b]. *)
Definition holds (s : vars) (r g b : Z) : Prop :=
  (0 <= r <= 255 /\ 0 <= g <= 255 /\ 0 <= b <= 255)
  /\ fgR s = of_Z r /\ fgG s = of_Z g /\ fgB s = of_Z b.

(** Equality of loop variables, field by field. *)
Definition vars_eqb (s t : vars) : bool :=
  PrimFloat.Leibniz.eqb (fgR s) (fgR t) && PrimFloat.Leibniz.eqb (fgG s) (fgG t)
  && PrimFloat.Leibniz.eqb (fgB s) (fgB t) && PrimFloat.Leibniz.eqb (cr s) (cr t).

(** The condition holds of [s] and of its next [n] successors, and the body
    leaves the last of them unchanged. *)
Fixpoint runs_into_fixpoint {S : Type} (n : nat) (cond : S -> bool) (body : S -> S)
  (eqb : S -> S -> bool) (s : S) : bool :=
  cond s &&
  match n with
  | O => eqb (body s) s
  | Datatypes.S k => runs_into_fixpoint k cond body eqb (body s)
  end.

(** The red, green and blue bytes of a packed colour are all 255. *)
Definition is_white (v : Z) : bool :=
  (red_byte v =? 255) && (green_byte v =? 255) && (blue_byte v =? 255).

(** The result of [ensureContrastRatio] is a colour whose red, green and
    blue bytes are all 255. *)
Definition is_saturated (r : option (option IColor)) : bool :=
  match r with
  | Some (Some c) => is_white (rgba c)
  | _ => false
  end.

(** Some colours. *)
Definition black : IColor := {| css := "#000000"; rgba := pack 0 0 0 255 |}.
Definition white : IColor := {| css := "#ffffff"; rgba := pack 255 255 255 255 |}.
Definition gray100 : IColor := {| css := "#646464"; rgba := pack 100 100 100 255 |}.
Definition gray128 : IColor := {| css := "#808080"; rgba := pack 128 128 128 255 |}.
Definition gray250 : IColor := {| css := "#fafafa"; rgba := pack 250 250 250 255 |}.

(** The channel the specification gives for [blend]:
    [bg + round ((fg - bg) * alpha / 255)]. *)
Definition blend_channel (bgC fgC alpha : Z) : Z :=
  bgC + round_half_away ((fgC - bgC) * alpha) 255.

(** [p] holds of every alpha byte below 255. *)
Definition forall_translucent (p : Z -> bool) : bool := forall_below 255 p.

(** What [Math.round] makes of [(fg - bg) * a] for the channel difference [d]
    and the alpha byte [alpha]: the rational [d * alpha / 255] rounded to the
    nearest integer (no tie occurs, so both tie rules give it), as a number,
    with [-0] for a zero reached from below; the result lies between [0] and
    [d]. *)
Definition round_check (d alpha : Z) : bool :=
  let x := Math_round (of_Z d * (of_Z alpha / 255))%float in
  let k := round_half_away (d * alpha) 255 in
  (PrimFloat.Leibniz.eqb x (of_Z k)
   || (k =? 0) && PrimFloat.Leibniz.eqb x PrimFloat.neg_zero)
  && (k =? round_half_even (d * alpha) 255)
  && ((0 <=? k) && (k <=? d) || (d <=? k) && (k <=? 0)).

(** The lower-case hexadecimal digit of value [d], [0 <= d < 16]. *)
Definition hex_char (d : Z) : ascii :=
  nth (Z.to_nat d)
      ["0"; "1"; "2"; "3"; "4"; "5"; "6"; "7"; "8"; "9"; "a"; "b"; "c"; "d"; "e"; "f"]%char
      "0"%char.

(** The two digits of a byte. *)
Definition two_hex (z : Z) : string :=
  String (hex_char (z / 16)) (String (hex_char (z mod 16)) EmptyString).

(** A non-empty string of hexadecimal digits (of either case), and the
    integer it writes, most significant digit first. *)
Fixpoint all_hex_digits (s : string) : bool :=
  match s with
  | EmptyString => true
  | String c t =>
      match HexString.ascii_to_digit c with
      | Some _ => all_hex_digits t
      | None => false
      end
  end.

Definition is_hex_number (s : string) : bool :=
  match s with
  | EmptyString => false
  | String _ _ => all_hex_digits s
  end.

Fixpoint hex_number_from (acc : Z) (s : string) : Z :=
  match s with
  | EmptyString => acc
  | String c t =>
      hex_number_from
        (16 * acc + match HexString.ascii_to_digit c with
                    | Some d => Z.of_N d
                    | None => 0
                    end) t
  end.

Definition hex_number (s : string) : Z := hex_number_from 0 s.

(** The contrast the two loops measure for a foreground of bytes [r], [g],
    [b] against the background [bg]: the foreground's luminance is taken with
    green and blue exchanged, as the loops call it. *)
Definition measured_contrast `{E : Engine} (bg : IColor) (r g b : Z) : number :=
  contrastRatio
    (rgbRelativeLuminance2 (of_Z r) (of_Z b) (of_Z g))
    (rgbRelativeLuminance2 (of_Z (red_byte (rgba bg))) (of_Z (green_byte (rgba bg)))
                           (of_Z (blue_byte (rgba bg)))).

(** The colour with its green and blue bytes exchanged. *)
Definition exchange_gb (c : IColor) : IColor :=
  {| css := css c;
     rgba := pack (red_byte (rgba c)) (blue_byte (rgba c)) (green_byte (rgba c))
                  (alpha_byte (rgba c)) |}.

(** The red, green and blue bytes of a colour. *)
Definition channels (c : IColor) : Z * Z * Z :=
  (red_byte (rgba c), green_byte (rgba c), blue_byte (rgba c)).

Definition channels_exchanged (c : IColor) : Z * Z * Z :=
  (red_byte (rgba c), blue_byte (rgba c), green_byte (rgba c)).

Section Canonical.

Context `{E : Engine}.

(** [reduceLuminance] and [increaseLuminance] with every luminance call in
    the canonical (R, G, B) order. *)
Definition reduceLuminance_canonical (fuel : nat) (bg fg : IColor) (ratio : number)
  : option IColor :=
  let bgR := of_Z (band (shr (rgba bg) 24) 255) in
  let bgG := of_Z (band (shr (rgba bg) 16) 255) in
  let bgB := of_Z (band (shr (rgba bg) 8) 255) in
  option_map color_of_vars
    (while fuel (reduce_cond ratio) (reduce_body_canonical bgR bgG bgB)
       (loop_init_canonical bgR bgG bgB fg)).

Definition increaseLuminance_canonical (fuel : nat) (bg fg : IColor) (ratio : number)
  : option IColor :=
  let bgR := of_Z (band (shr (rgba bg) 24) 255) in
  let bgG := of_Z (band (shr (rgba bg) 16) 255) in
  let bgB := of_Z (band (shr (rgba bg) 8) 255) in
  option_map color_of_vars
    (while fuel (increase_cond ratio) (increase_body_canonical bgR bgG bgB)
       (loop_init_canonical bgR bgG bgB fg)).

(** What both loops keep true of their variables: the channels hold bytes,
    and [cr] is the contrast measured for them. *)
Definition in_step (bg : IColor) (s : vars) (r g b : Z) : Prop :=
  holds s r g b /\ cr s = measured_contrast bg r g b.

End Canonical.

(** The largest luminance the facts about [contrastRatio] below cover:
    [2^1021]. *)
Definition luminance_bound : number := 0x1p1021%float.

(** * Facts *)

(** ** Checking a predicate on a range *)

Lemma forall_below_spec (n : nat) (p : Z -> bool) :
  forall_below n p = true -> forall z, 0 <= z < Z.of_nat n -> p z = true.
Proof.
  induction n as [|k IH]; simpl; intros Hall z Hz; [lia|].
  apply andb_true_iff in Hall as [Hk Hrest].
  destruct (Z.eq_dec z (Z.of_nat k)) as [->|Hne]; [exact Hk|].
  apply IH; [exact Hrest|lia].
Qed.

Lemma forall_byte_spec (p : Z -> bool) :
  forall_byte p = true -> forall z, 0 <= z <= 255 -> p z = true.
Proof.
  intros Hall z Hz. apply (forall_below_spec 256 p Hall). simpl. lia.
Qed.

Lemma forall_diff_spec (p : Z -> bool) :
  forall_diff p = true -> forall z, -255 <= z <= 255 -> p z = true.
Proof.
  intros Hall z Hz.
  pose proof (forall_below_spec 511 _ Hall (z + 255)) as H.
  simpl in H. replace (z + 255 - 255) with z in H by lia. apply H. lia.
Qed.

(** ** The bitwise operators *)

Lemma wrap_int32_range (z : Z) : - 2 ^ 31 <= wrap_int32 z < 2 ^ 31.
Proof. unfold wrap_int32. pose proof (Z.mod_pos_bound (z + 2 ^ 31) (2 ^ 32)). lia. Qed.

Lemma wrap_int32_eqm (z : Z) : exists k, wrap_int32 z = z + k * 2 ^ 32.
Proof.
  unfold wrap_int32. exists (- ((z + 2 ^ 31) / 2 ^ 32)).
  pose proof (Z.div_mod (z + 2 ^ 31) (2 ^ 32)). lia.
Qed.

Lemma wrap_int32_small (z : Z) : - 2 ^ 31 <= z < 2 ^ 31 -> wrap_int32 z = z.
Proof.
  intros Hz. unfold wrap_int32.
  rewrite Z.mod_small by lia. lia.
Qed.

Lemma land_255 (z : Z) : Z.land z 255 = z mod 256.
Proof. change 255 with (Z.ones 8). rewrite Z.land_ones by lia. reflexivity. Qed.

Lemma band_255 (z : Z) : band z 255 = z mod 256.
Proof.
  unfold band. rewrite (wrap_int32_small 255) by lia. rewrite land_255.
  destruct (wrap_int32_eqm z) as [k ->].
  Z.to_euclidean_division_equations. lia.
Qed.

Lemma band_shr_255 (v k : Z) :
  0 <= k <= 24 -> band (shr v k) 255 = (v / 2 ^ k) mod 256.
Proof.
  intros Hk. rewrite band_255. unfold shr. rewrite Z.shiftr_div_pow2 by lia.
  destruct (wrap_int32_eqm v) as [j ->].
  replace (2 ^ 32) with (2 ^ (32 - k) * 2 ^ k) by (rewrite <- Z.pow_add_r by lia; f_equal; lia).
  rewrite Z.mul_assoc, Z.div_add by (apply Z.pow_nonzero; lia).
  replace (2 ^ (32 - k)) with (2 ^ (24 - k) * 256) by (change 256 with (2 ^ 8); rewrite <- Z.pow_add_r by lia; f_equal; lia).
  rewrite Z.mul_assoc, Z.mod_add by lia. reflexivity.
Qed.

Lemma red_byte_js (v : Z) : band (shr v 24) 255 = red_byte v.
Proof. apply band_shr_255. lia. Qed.

Lemma green_byte_js (v : Z) : band (shr v 16) 255 = green_byte v.
Proof. apply band_shr_255. lia. Qed.

Lemma blue_byte_js (v : Z) : band (shr v 8) 255 = blue_byte v.
Proof. apply band_shr_255. lia. Qed.

Lemma alpha_byte_js (v : Z) : band v 255 = alpha_byte v.
Proof. apply band_255. Qed.

Lemma byte_range (z : Z) : 0 <= z mod 256 <= 255.
Proof. pose proof (Z.mod_pos_bound z 256). lia. Qed.

(** The luminance wrapper reads the bytes of [rgba >> 8]. *)
Lemma shr8_bytes (v : Z) :
  band (shr (shr v 8) 16) 255 = red_byte v
  /\ band (shr (shr v 8) 8) 255 = green_byte v
  /\ band (shr v 8) 255 = blue_byte v.
Proof.
  assert (Hs : shr v 8 = wrap_int32 v / 2 ^ 8).
  { unfold shr. apply Z.shiftr_div_pow2. lia. }
  pose proof (wrap_int32_range v) as Hr.
  destruct (wrap_int32_eqm v) as [j Hj].
  repeat split.
  - rewrite band_shr_255 by lia. rewrite Hs. unfold red_byte.
    rewrite Hj in *. Z.to_euclidean_division_equations. lia.
  - rewrite band_shr_255 by lia. rewrite Hs. unfold green_byte.
    rewrite Hj in *. Z.to_euclidean_division_equations. lia.
  - apply blue_byte_js.
Qed.

(** ** Numbers that hold a byte *)

Lemma float_eq (x y : number) : PrimFloat.Leibniz.eqb x y = true -> x = y.
Proof. apply FloatAxioms.Leibniz.eqb_spec. Qed.

Lemma truncate_byte (z : Z) : 0 <= z <= 255 -> truncate (of_Z z) = z.
Proof.
  intros Hz. apply Z.eqb_eq. revert z Hz.
  apply (forall_byte_spec (fun z => truncate (of_Z z) =? z)).
  vm_compute. reflexivity.
Qed.

Lemma positive_byte (z : Z) :
  0 <= z <= 255 -> (0 <? of_Z z)%float = (0 <? z).
Proof.
  intros Hz. apply eqb_prop. revert z Hz.
  apply (forall_byte_spec (fun z => Bool.eqb (0 <? of_Z z)%float (0 <? z))).
  vm_compute. reflexivity.
Qed.

Lemma below_255_byte (z : Z) :
  0 <= z <= 255 -> (of_Z z <? 255)%float = (z <? 255).
Proof.
  intros Hz. apply eqb_prop. revert z Hz.
  apply (forall_byte_spec (fun z => Bool.eqb (of_Z z <? 255)%float (z <? 255))).
  vm_compute. reflexivity.
Qed.

(** One iteration of either loop on a channel that holds a byte. *)
Lemma reduce_channel (z : Z) :
  0 <= z <= 255 ->
  (of_Z z - Math_max 0 (Math_ceil (of_Z z * 0.1)))%float = of_Z (reduce_step z).
Proof.
  intros Hz. apply float_eq. revert z Hz.
  apply (forall_byte_spec (fun z => PrimFloat.Leibniz.eqb
           (of_Z z - Math_max 0 (Math_ceil (of_Z z * 0.1)))%float (of_Z (reduce_step z)))).
  vm_compute. reflexivity.
Qed.

Lemma increase_channel (z : Z) :
  0 <= z <= 255 ->
  (Math_min 255 (of_Z z + Math_floor ((255 - of_Z z) * 0.1)))%float
  = of_Z (increase_step z).
Proof.
  intros Hz. apply float_eq. revert z Hz.
  apply (forall_byte_spec (fun z => PrimFloat.Leibniz.eqb
           (Math_min 255 (of_Z z + Math_floor ((255 - of_Z z) * 0.1)))%float
           (of_Z (increase_step z)))).
  vm_compute. reflexivity.
Qed.

Lemma reduce_step_range (z : Z) : 0 <= z <= 255 -> 0 <= reduce_step z <= 255.
Proof. unfold reduce_step. intros. Z.to_euclidean_division_equations. lia. Qed.

Lemma reduce_step_decreases (z : Z) : 0 < z <= 255 -> reduce_step z < z.
Proof. unfold reduce_step. intros. Z.to_euclidean_division_equations. lia. Qed.

Lemma reduce_step_zero : reduce_step 0 = 0.
Proof. reflexivity. Qed.

Lemma increase_step_range (z : Z) : 0 <= z <= 255 -> 0 <= increase_step z <= 255.
Proof. unfold increase_step. intros. Z.to_euclidean_division_equations. lia. Qed.

(** A channel below 255 stays below 255: the increment [floor ((255 - z) / 10)]
    is [0] from 246 on. *)
Lemma increase_step_below (z : Z) : 0 <= z < 255 -> increase_step z < 255.
Proof. unfold increase_step. intros. Z.to_euclidean_division_equations. lia. Qed.

Lemma increase_step_stuck (z : Z) : 246 <= z <= 255 -> increase_step z = z.
Proof. unfold increase_step. intros. Z.to_euclidean_division_equations. lia. Qed.

(** ** The loops *)

Lemma while_unfold {S : Type} (fuel : nat) (cond : S -> bool) (body : S -> S) (s : S) :
  while fuel cond body s =
  if cond s then
    match fuel with
    | O => None
    | Datatypes.S n => while n cond body (body s)
    end
  else Some s.
Proof. destruct fuel; reflexivity. Qed.

(** More fuel does not change a result. *)
Lemma while_more_fuel {S : Type} (cond : S -> bool) (body : S -> S) :
  forall (fuel : nat) (s s' : S) (k : nat),
    while fuel cond body s = Some s' -> while (fuel + k) cond body s = Some s'.
Proof.
  induction fuel as [|n IH]; intros s s' k; simpl.
  - rewrite while_unfold. destruct (cond s); [discriminate|auto].
  - destruct (cond s); [apply IH|auto].
Qed.

(** A loop whose condition holds of a state its body does not change never
    ends. *)
Lemma while_stuck {S : Type} (cond : S -> bool) (body : S -> S) (s : S) :
  cond s = true -> body s = s -> forall fuel, while fuel cond body s = None.
Proof.
  intros Hc Hb. induction fuel as [|n IH]; rewrite while_unfold, Hc; [reflexivity|].
  rewrite Hb. exact IH.
Qed.

Lemma while_step_None {S : Type} (cond : S -> bool) (body : S -> S) (s : S) :
  cond s = true ->
  (forall fuel, while fuel cond body (body s) = None) ->
  forall fuel, while fuel cond body s = None.
Proof.
  intros Hc Hnext fuel. rewrite while_unfold, Hc. destruct fuel; auto.
Qed.

(** The state a loop returns fails the condition, and an invariant of the body
    holds of it. *)
Lemma while_exit {S : Type} (cond : S -> bool) (body : S -> S) (I : S -> Prop) :
  (forall s, I s -> cond s = true -> I (body s)) ->
  forall (fuel : nat) (s s' : S),
    I s -> while fuel cond body s = Some s' -> I s' /\ cond s' = false.
Proof.
  intros Hstep. induction fuel as [|n IH]; intros s s' Hs; rewrite while_unfold;
    destruct (cond s) eqn:Hc; intros Hw; try discriminate Hw.
  - injection Hw as <-. auto.
  - apply (IH (body s)); auto.
  - injection Hw as <-. auto.
Qed.

Section LoopFacts.

Context `{E : Engine}.

Lemma loop_init_holds (bgR bgG bgB : number) (fg : IColor) :
  holds (loop_init bgR bgG bgB fg)
        (red_byte (rgba fg)) (green_byte (rgba fg)) (blue_byte (rgba fg)).
Proof.
  unfold holds, loop_init; simpl.
  rewrite red_byte_js, green_byte_js, blue_byte_js.
  unfold red_byte, green_byte, blue_byte.
  pose proof (byte_range (rgba fg / 2 ^ 24)).
  pose proof (byte_range (rgba fg / 2 ^ 16)).
  pose proof (byte_range (rgba fg / 2 ^ 8)).
  repeat split; lia.
Qed.

Lemma reduce_body_holds (bgR bgG bgB : number) (s : vars) (r g b : Z) :
  holds s r g b ->
  holds (reduce_body bgR bgG bgB s) (reduce_step r) (reduce_step g) (reduce_step b).
Proof.
  intros [(Hr & Hg & Hb) (Er & Eg & Eb)]. unfold holds, reduce_body; simpl.
  rewrite Er, Eg, Eb, !reduce_channel by assumption.
  pose proof (reduce_step_range r Hr). pose proof (reduce_step_range g Hg).
  pose proof (reduce_step_range b Hb). repeat split; lia.
Qed.

Lemma increase_body_holds (bgR bgG bgB : number) (s : vars) (r g b : Z) :
  holds s r g b ->
  holds (increase_body bgR bgG bgB s)
        (increase_step r) (increase_step g) (increase_step b).
Proof.
  intros [(Hr & Hg & Hb) (Er & Eg & Eb)]. unfold holds, increase_body; simpl.
  rewrite Er, Eg, Eb, !increase_channel by assumption.
  pose proof (increase_step_range r Hr). pose proof (increase_step_range g Hg).
  pose proof (increase_step_range b Hb). repeat split; lia.
Qed.

Lemma reduce_cond_holds (ratio : number) (s : vars) (r g b : Z) :
  holds s r g b ->
  reduce_cond ratio s = (cr s <? ratio)%float && ((0 <? r) || (0 <? g) || (0 <? b)).
Proof.
  intros [(Hr & Hg & Hb) (Er & Eg & Eb)]. unfold reduce_cond.
  rewrite Er, Eg, Eb, !positive_byte by assumption. reflexivity.
Qed.

Lemma increase_cond_holds (ratio : number) (s : vars) (r g b : Z) :
  holds s r g b ->
  increase_cond ratio s
  = (cr s <? ratio)%float && ((r <? 255) || (g <? 255) || (b <? 255)).
Proof.
  intros [(Hr & Hg & Hb) (Er & Eg & Eb)]. unfold increase_cond.
  rewrite Er, Eg, Eb, !below_255_byte by assumption. reflexivity.
Qed.

(** The loop of [reduceLuminance] ends within [max r g b] iterations. *)
Lemma reduce_loop_terminates (bgR bgG bgB ratio : number) :
  forall (fuel : nat) (s : vars) (r g b : Z),
    holds s r g b ->
    Z.max r (Z.max g b) <= Z.of_nat fuel ->
    exists s' r' g' b',
      while fuel (reduce_cond ratio) (reduce_body bgR bgG bgB) s = Some s'
      /\ holds s' r' g' b' /\ r' <= r /\ g' <= g /\ b' <= b.
Proof.
  induction fuel as [|n IH]; intros s r g b Hs Hmax; rewrite while_unfold;
    rewrite (reduce_cond_holds ratio s r g b Hs);
    pose proof Hs as [(Hr & Hg & Hb) _].
  - replace ((0 <? r) || (0 <? g) || (0 <? b)) with false
      by (symmetry; rewrite !orb_false_iff, !Z.ltb_ge; lia).
    rewrite andb_false_r. exists s, r, g, b. repeat split; auto; try lia; apply Hs.
  - destruct ((cr s <? ratio)%float && ((0 <? r) || (0 <? g) || (0 <? b))) eqn:Hc.
    + apply andb_true_iff in Hc as [_ Hpos].
      rewrite !orb_true_iff, !Z.ltb_lt in Hpos.
      pose proof (reduce_step_range r Hr). pose proof (reduce_step_range g Hg).
      pose proof (reduce_step_range b Hb).
      assert (Hr' : reduce_step r <= r /\ (0 < r -> reduce_step r < r)).
      { split; [unfold reduce_step; Z.to_euclidean_division_equations; lia|].
        intros. apply reduce_step_decreases. lia. }
      assert (Hg' : reduce_step g <= g /\ (0 < g -> reduce_step g < g)).
      { split; [unfold reduce_step; Z.to_euclidean_division_equations; lia|].
        intros. apply reduce_step_decreases. lia. }
      assert (Hb' : reduce_step b <= b /\ (0 < b -> reduce_step b < b)).
      { split; [unfold reduce_step; Z.to_euclidean_division_equations; lia|].
        intros. apply reduce_step_decreases. lia. }
      destruct (IH (reduce_body bgR bgG bgB s) _ _ _ (reduce_body_holds bgR bgG bgB s r g b Hs))
        as (s' & r' & g' & b' & Hw & Hs' & Hle); [lia|].
      exists s', r', g', b'. repeat split; auto; try apply Hs'; lia.
    + exists s, r, g, b. repeat split; auto; try lia; apply Hs.
Qed.

(** A channel of [increaseLuminance] that starts below 255 stays below 255, so
    the loop ends only when the contrast test fails. *)
Lemma increase_loop_exit (bgR bgG bgB ratio : number) :
  forall (fuel : nat) (s s' : vars) (r g b : Z),
    holds s r g b -> r < 255 \/ g < 255 \/ b < 255 ->
    while fuel (increase_cond ratio) (increase_body bgR bgG bgB) s = Some s' ->
    (cr s' <? ratio)%float = false
    /\ exists r' g' b', holds s' r' g' b' /\ (r' < 255 \/ g' < 255 \/ b' < 255).
Proof.
  intros fuel s s' r g b Hs Hlt Hw.
  destruct (while_exit (increase_cond ratio) (increase_body bgR bgG bgB)
              (fun s => exists r g b, holds s r g b /\ (r < 255 \/ g < 255 \/ b < 255)))
    with (fuel := fuel) (s := s) (s' := s') as [(r' & g' & b' & Hs' & Hlt') Hc]; auto.
  - intros t (r1 & g1 & b1 & Ht & Hlt1) _.
    exists (increase_step r1), (increase_step g1), (increase_step b1).
    split; [apply increase_body_holds; exact Ht|].
    destruct Ht as [(Hr & Hg & Hb) _].
    destruct Hlt1 as [H|[H|H]];
      [left|right; left|right; right]; apply increase_step_below; lia.
  - exists r, g, b; auto.
  - split; [|exists r', g', b'; auto].
    rewrite (increase_cond_holds ratio s' r' g' b' Hs') in Hc.
    apply andb_false_iff in Hc as [Hc|Hc]; [exact Hc|].
    rewrite !orb_false_iff, !Z.ltb_ge in Hc. lia.
Qed.

End LoopFacts.

(** ** Packing *)

Lemma wrap_int32_mod (z : Z) : wrap_int32 z mod 2 ^ 32 = z mod 2 ^ 32.
Proof.
  destruct (wrap_int32_eqm z) as [k ->]. apply Z.mod_add. lia.
Qed.

Lemma lor_mod_pow2 (x y n : Z) :
  0 <= n -> Z.lor x y mod 2 ^ n = Z.lor (x mod 2 ^ n) (y mod 2 ^ n).
Proof.
  intros Hn. rewrite <- !Z.land_ones by lia. apply Z.land_lor_distr_l.
Qed.

Lemma bor_mod (x y : Z) :
  bor x y mod 2 ^ 32 = Z.lor (x mod 2 ^ 32) (y mod 2 ^ 32).
Proof.
  unfold bor. rewrite lor_mod_pow2 by lia. now rewrite !wrap_int32_mod.
Qed.

Lemma shl_mod (x k : Z) : 0 <= k -> shl x k mod 2 ^ 32 = (x * 2 ^ k) mod 2 ^ 32.
Proof.
  intros Hk. unfold shl. rewrite wrap_int32_mod, Z.shiftl_mul_pow2 by lia.
  destruct (wrap_int32_eqm x) as [j ->].
  replace ((x + j * 2 ^ 32) * 2 ^ k) with (x * 2 ^ k + (j * 2 ^ k) * 2 ^ 32) by ring.
  apply Z.mod_add. lia.
Qed.

(** Bits that do not overlap add up. *)
Lemma lor_disjoint (hi lo k : Z) :
  0 <= k -> 0 <= lo < 2 ^ k -> Z.lor (hi * 2 ^ k) lo = hi * 2 ^ k + lo.
Proof.
  intros Hk Hlo.
  assert (Hland : Z.land (hi * 2 ^ k) lo = 0).
  { apply Z.bits_inj'. intros n Hn. rewrite Z.land_spec, Z.bits_0.
    destruct (Z.lt_ge_cases n k) as [Hlt|Hge].
    - rewrite Z.mul_pow2_bits_low by lia. reflexivity.
    - rewrite andb_comm.
      destruct (Z.eq_dec lo 0) as [->|Hne]; [now rewrite Z.bits_0|].
      rewrite Z.bits_above_log2; [reflexivity|lia|].
      apply Z.log2_lt_pow2; [lia|].
      apply Z.lt_le_trans with (2 ^ k); [lia|].
      apply Z.pow_le_mono_r; lia. }
  rewrite <- Z.lxor_lor by exact Hland.
  symmetry. apply Z.add_nocarry_lxor. exact Hland.
Qed.

Lemma pack_lor (r g b a : Z) :
  0 <= g <= 255 -> 0 <= b <= 255 -> 0 <= a <= 255 ->
  Z.lor (Z.lor (Z.lor (r * 2 ^ 24) (g * 2 ^ 16)) (b * 2 ^ 8)) a = pack r g b a.
Proof.
  intros Hg Hb Ha. unfold pack.
  rewrite (lor_disjoint r (g * 2 ^ 16) 24) by lia.
  replace (r * 2 ^ 24 + g * 2 ^ 16) with ((r * 2 ^ 8 + g) * 2 ^ 16) by ring.
  rewrite (lor_disjoint _ (b * 2 ^ 8) 16) by lia.
  replace ((r * 2 ^ 8 + g) * 2 ^ 16 + b * 2 ^ 8)
    with (((r * 2 ^ 8 + g) * 2 ^ 8 + b) * 2 ^ 8) by ring.
  rewrite (lor_disjoint _ a 8) by lia. ring.
Qed.

Lemma lor_byte_255 (z : Z) : 0 <= z <= 255 -> Z.lor z 255 = 255.
Proof.
  intros Hz. apply Z.eqb_eq. revert z Hz.
  apply (forall_byte_spec (fun z => Z.lor z 255 =? 255)).
  vm_compute. reflexivity.
Qed.

Section PackFacts.

Context `{E : Engine}.

(** [toRgba] of four bytes is the packed colour. *)
Lemma toRgba_bytes (r g b a : Z) :
  0 <= r <= 255 -> 0 <= g <= 255 -> 0 <= b <= 255 -> 0 <= a <= 255 ->
  toRgba (of_Z r) (of_Z g) (of_Z b) (of_Z a) = pack r g b a.
Proof.
  intros Hr Hg Hb Ha. unfold toRgba, ushr0, wrap_uint32.
  rewrite !truncate_byte by assumption.
  rewrite !bor_mod, !shl_mod by lia.
  rewrite !(Z.mod_small _ (2 ^ 32)) by lia.
  rewrite pack_lor by assumption. reflexivity.
Qed.

(** Whatever the channels are, [toRgba] with its default alpha is opaque. *)
Lemma toRgba_opaque (r g b : number) : alpha_byte (toRgba r g b 255%float) = 255.
Proof.
  unfold toRgba, ushr0, wrap_uint32, alpha_byte.
  change (truncate 255%float) with 255.
  rewrite bor_mod. change (255 mod 2 ^ 32) with 255.
  set (x := bor _ _ mod _).
  change 256 with (2 ^ 8). rewrite lor_mod_pow2 by lia.
  change (255 mod 2 ^ 8) with 255. change (2 ^ 8) with 256.
  apply lor_byte_255, byte_range.
Qed.

End PackFacts.

Lemma pack_bytes (r g b a : Z) :
  0 <= r <= 255 -> 0 <= g <= 255 -> 0 <= b <= 255 -> 0 <= a <= 255 ->
  red_byte (pack r g b a) = r /\ green_byte (pack r g b a) = g
  /\ blue_byte (pack r g b a) = b /\ alpha_byte (pack r g b a) = a.
Proof.
  intros. unfold red_byte, green_byte, blue_byte, alpha_byte, pack.
  repeat split; Z.to_euclidean_division_equations; lia.
Qed.

Lemma runs_into_fixpoint_diverges {S : Type} (cond : S -> bool) (body : S -> S)
  (eqb : S -> S -> bool) :
  (forall a b, eqb a b = true -> a = b) ->
  forall (n : nat) (s : S),
    runs_into_fixpoint n cond body eqb s = true ->
    forall fuel, while fuel cond body s = None.
Proof.
  intros Heqb. induction n as [|k IH]; intros s Hrun; simpl in Hrun;
    apply andb_true_iff in Hrun as [Hc Hrest].
  - apply while_stuck; auto.
  - apply while_step_None; auto.
Qed.

Lemma vars_eqb_eq (s t : vars) : vars_eqb s t = true -> s = t.
Proof.
  unfold vars_eqb. rewrite !andb_true_iff. intros [[[Hr Hg] Hb] Hc].
  destruct s, t; simpl in *.
  apply float_eq in Hr, Hg, Hb, Hc. congruence.
Qed.

(** ** The adjusted colour *)

Section Adjusted.

Context `{E : Engine}.

Lemma color_of_vars_rgba (s : vars) (r g b : Z) :
  holds s r g b -> rgba (color_of_vars s) = pack r g b 255.
Proof.
  intros [(Hr & Hg & Hb) (Er & Eg & Eb)]. unfold color_of_vars; cbn [rgba].
  rewrite Er, Eg, Eb. change 255%float with (of_Z 255).
  apply toRgba_bytes; lia.
Qed.

Lemma is_white_pack (r g b a : Z) :
  0 <= r <= 255 -> 0 <= g <= 255 -> 0 <= b <= 255 -> 0 <= a <= 255 ->
  is_white (pack r g b a) = true -> r = 255 /\ g = 255 /\ b = 255.
Proof.
  intros Hr Hg Hb Ha. unfold is_white.
  destruct (pack_bytes r g b a Hr Hg Hb Ha) as (-> & -> & -> & _).
  rewrite !andb_true_iff, !Z.eqb_eq. tauto.
Qed.

Lemma is_white_bytes (v : Z) :
  is_white v = false ->
  red_byte v < 255 \/ green_byte v < 255 \/ blue_byte v < 255.
Proof.
  unfold is_white. rewrite !andb_false_iff, !Z.eqb_neq.
  pose proof (byte_range (v / 2 ^ 24)). pose proof (byte_range (v / 2 ^ 16)).
  pose proof (byte_range (v / 2 ^ 8)). unfold red_byte, green_byte, blue_byte. lia.
Qed.

(** With enough fuel [reduceLuminance] returns. *)
Lemma reduceLuminance_returns (bg fg : IColor) (ratio : number) (fuel : nat) :
  (255 <= fuel)%nat ->
  exists s r g b,
    reduceLuminance fuel bg fg ratio = Some (color_of_vars s)
    /\ holds s r g b
    /\ r <= red_byte (rgba fg) /\ g <= green_byte (rgba fg) /\ b <= blue_byte (rgba fg).
Proof.
  intros Hfuel. unfold reduceLuminance.
  set (bgR := of_Z (band (shr (rgba bg) 24) 255)).
  set (bgG := of_Z (band (shr (rgba bg) 16) 255)).
  set (bgB := of_Z (band (shr (rgba bg) 8) 255)).
  pose proof (loop_init_holds bgR bgG bgB fg) as Hinit.
  destruct (reduce_loop_terminates bgR bgG bgB ratio fuel _ _ _ _ Hinit)
    as (s' & r' & g' & b' & Hw & Hs' & Hle).
  { destruct Hinit as [Hb _]. lia. }
  exists s', r', g', b'. rewrite Hw. cbn [option_map]. auto.
Qed.

(** The colour [reduceLuminance] returns does not depend on the fuel. *)
Lemma reduceLuminance_result (fuel : nat) (bg fg c : IColor) (ratio : number) :
  reduceLuminance fuel bg fg ratio = Some c ->
  exists s r g b,
    c = color_of_vars s /\ holds s r g b
    /\ r <= red_byte (rgba fg) /\ g <= green_byte (rgba fg) /\ b <= blue_byte (rgba fg).
Proof.
  intros Hc.
  destruct (reduceLuminance_returns bg fg ratio (fuel + 255)) as (s & r & g & b & Hret & Hs & Hle);
    [lia|].
  exists s, r, g, b. repeat split; try apply Hs; try lia.
  unfold reduceLuminance in Hc, Hret.
  destruct (while fuel _ _ _) as [s0|] eqn:Hw; [|discriminate Hc].
  rewrite (while_more_fuel _ _ _ _ _ 255 Hw) in Hret.
  cbn [option_map] in Hc, Hret. congruence.
Qed.

Lemma increaseLuminance_result (fuel : nat) (bg fg c : IColor) (ratio : number) :
  increaseLuminance fuel bg fg ratio = Some c ->
  is_white (rgba fg) = false ->
  exists s r g b,
    c = color_of_vars s /\ holds s r g b /\ (r < 255 \/ g < 255 \/ b < 255)
    /\ (cr s <? ratio)%float = false.
Proof.
  unfold increaseLuminance. intros Hc Hnw.
  destruct (while fuel _ _ _) as [s|] eqn:Hw; [|discriminate].
  injection Hc as <-.
  eapply increase_loop_exit in Hw as (Hcr & r & g & b & Hs & Hlt).
  - exists s, r, g, b. auto.
  - apply loop_init_holds.
  - apply is_white_bytes. exact Hnw.
Qed.

End Adjusted.

(** * The claims *)

(** ** Alpha of the foreground *)

(** C7. When the alpha byte of the foreground is 255, [blend] returns the
    foreground itself, whatever the background: the same [css] string and the
    same packed value. *)
Theorem blend_opaque_foreground `{E : Engine} (bg fg : IColor) :
  alpha_byte (rgba fg) = 255 ->
  blend bg fg = fg /\ css (blend bg fg) = css fg /\ rgba (blend bg fg) = rgba fg.
Proof.
  intros Ha.
  assert (Hb : blend bg fg = fg).
  { unfold blend. rewrite alpha_byte_js, Ha.
    replace (of_Z 255 / 255 =? 1)%float with true by (vm_compute; reflexivity).
    destruct fg; reflexivity. }
  rewrite Hb. auto.
Qed.

Lemma blend_opaque_foreground_witness :
  alpha_byte (rgba gray128) = 255
  /\ @blend Sample.engine black gray128 = gray128.
Proof.
  split; [reflexivity|].
  apply (@blend_opaque_foreground Sample.engine black gray128). reflexivity.
Defined.

(** C9. The colour [reduceLuminance] returns (it returns whenever it is given
    255 iterations or more) and the colour [increaseLuminance] returns have
    alpha byte 255, whatever the alpha byte of the foreground was. *)
Theorem adjusted_color_is_opaque `{E : Engine} (bg fg : IColor) (ratio : number) :
  (forall fuel, (255 <= fuel)%nat ->
     exists c, reduceLuminance fuel bg fg ratio = Some c /\ alpha_byte (rgba c) = 255)
  /\ (forall fuel c,
        reduceLuminance fuel bg fg ratio = Some c -> alpha_byte (rgba c) = 255)
  /\ (forall fuel c,
        increaseLuminance fuel bg fg ratio = Some c -> alpha_byte (rgba c) = 255).
Proof.
  assert (Hopaque : forall s, alpha_byte (rgba (color_of_vars s)) = 255).
  { intros s. unfold color_of_vars; cbn [rgba]. apply toRgba_opaque. }
  repeat split.
  - intros fuel Hfuel.
    destruct (reduceLuminance_returns bg fg ratio fuel Hfuel) as (s & r & g & b & Hret & _).
    exists (color_of_vars s). auto.
  - intros fuel c Hc. unfold reduceLuminance in Hc.
    destruct (while fuel _ _ _) as [s|]; [|discriminate Hc].
    injection Hc as <-. apply Hopaque.
  - intros fuel c Hc. unfold increaseLuminance in Hc.
    destruct (while fuel _ _ _) as [s|]; [|discriminate Hc].
    injection Hc as <-. apply Hopaque.
Qed.

(** C10. The three contrast functions read only the packed form of their
    colour arguments: colours with equal [rgba] give equal results, whatever
    their [css] strings are. *)
Theorem contrast_functions_ignore_css `{E : Engine}
  (fuel : nat) (bg1 bg2 fg1 fg2 : IColor) (ratio : number) :
  rgba bg1 = rgba bg2 -> rgba fg1 = rgba fg2 ->
  ensureContrastRatio fuel bg1 fg1 ratio = ensureContrastRatio fuel bg2 fg2 ratio
  /\ reduceLuminance fuel bg1 fg1 ratio = reduceLuminance fuel bg2 fg2 ratio
  /\ increaseLuminance fuel bg1 fg1 ratio = increaseLuminance fuel bg2 fg2 ratio.
Proof.
  intros Hbg Hfg.
  unfold ensureContrastRatio, reduceLuminance, increaseLuminance, loop_init.
  rewrite Hbg, Hfg. auto.
Qed.

Lemma adjusted_color_is_opaque_witness :
  exists c, @increaseLuminance Sample.engine 300 black gray100 4.5%float = Some c
            /\ alpha_byte (rgba c) = 255.
Proof.
  exists {| css := "#818181"; rgba := pack 129 129 129 255 |}.
  split; [vm_compute; reflexivity|].
  apply (proj2 (proj2 (@adjusted_color_is_opaque Sample.engine black gray100 4.5%float)) 300%nat).
  vm_compute. reflexivity.
Defined.

Lemma contrast_functions_ignore_css_witness :
  @ensureContrastRatio Sample.engine 300 black gray100 4.5%float
  = @ensureContrastRatio Sample.engine 300
      {| css := "#123456"; rgba := pack 0 0 0 255 |}
      {| css := "grey"; rgba := pack 100 100 100 255 |} 4.5%float.
Proof.
  apply (@contrast_functions_ignore_css Sample.engine 300 black
           {| css := "#123456"; rgba := pack 0 0 0 255 |} gray100
           {| css := "grey"; rgba := pack 100 100 100 255 |} 4.5%float); reflexivity.
Defined.

(** ** The loop of [increaseLuminance] *)

Section Stuck.

Context `{E : Engine}.

(** From 246 on the body of the loop leaves a channel as it is. *)
Lemma increase_body_stuck (bgR bgG bgB : number) (fg : IColor) :
  246 <= red_byte (rgba fg) -> 246 <= green_byte (rgba fg) ->
  246 <= blue_byte (rgba fg) ->
  increase_body bgR bgG bgB (loop_init bgR bgG bgB fg) = loop_init bgR bgG bgB fg.
Proof.
  intros Hr Hg Hb.
  pose proof (byte_range (rgba fg / 2 ^ 24)) as Br.
  pose proof (byte_range (rgba fg / 2 ^ 16)) as Bg.
  pose proof (byte_range (rgba fg / 2 ^ 8)) as Bb.
  unfold increase_body, loop_init; cbn [fgR fgG fgB cr].
  rewrite red_byte_js, green_byte_js, blue_byte_js.
  unfold red_byte, green_byte, blue_byte in *.
  rewrite !increase_channel by lia.
  rewrite !increase_step_stuck by lia. reflexivity.
Qed.

End Stuck.

(** C2 (the code does not do this).  Against any background and for any
    ratio, a foreground whose channels are all 246 or more and not all 255,
    and whose contrast is below the ratio, makes the loop of
    [increaseLuminance] run forever: no number of iterations is enough. *)
Theorem increaseLuminance_runs_forever `{E : Engine}
  (fuel : nat) (bg fg : IColor) (ratio : number) :
  246 <= red_byte (rgba fg) -> 246 <= green_byte (rgba fg) ->
  246 <= blue_byte (rgba fg) -> is_white (rgba fg) = false ->
  (contrastRatio
     (rgbRelativeLuminance2 (of_Z (red_byte (rgba fg))) (of_Z (blue_byte (rgba fg)))
                            (of_Z (green_byte (rgba fg))))
     (rgbRelativeLuminance2 (of_Z (red_byte (rgba bg))) (of_Z (green_byte (rgba bg)))
                            (of_Z (blue_byte (rgba bg)))) <? ratio)%float = true ->
  increaseLuminance fuel bg fg ratio = None.
Proof.
  intros Hr Hg Hb Hnw Hcr. unfold increaseLuminance.
  set (bgR := of_Z (band (shr (rgba bg) 24) 255)).
  set (bgG := of_Z (band (shr (rgba bg) 16) 255)).
  set (bgB := of_Z (band (shr (rgba bg) 8) 255)).
  rewrite while_stuck; [reflexivity| |apply increase_body_stuck; assumption].
  pose proof (loop_init_holds bgR bgG bgB fg) as Hinit.
  rewrite (increase_cond_holds ratio _ _ _ _ Hinit).
  apply andb_true_iff. split.
  - unfold loop_init; cbn [cr]. subst bgR bgG bgB.
    rewrite !red_byte_js, !green_byte_js, !blue_byte_js. exact Hcr.
  - apply is_white_bytes in Hnw. rewrite !orb_true_iff, !Z.ltb_lt. tauto.
Qed.

Lemma increaseLuminance_runs_forever_witness :
  @increaseLuminance Sample.engine 1000 black gray250 25%float = None.
Proof.
  apply (@increaseLuminance_runs_forever Sample.engine 1000 black gray250 25%float);
    vm_compute; solve [reflexivity | discriminate].
Defined.

(** C3 (the code does not do this).  With the sample engine, black as the
    background, the grey (128, 128, 128) as the foreground and the ratio 25,
    [ensureContrastRatio] takes the increase path and never returns; and
    whatever the engine, the background and the ratio are, the colour it
    returns is saturated only if the foreground was so already. *)
Theorem ensureContrastRatio_unmeetable_runs_forever :
  (forall fuel, @ensureContrastRatio Sample.engine fuel black gray128 25%float = None)
  /\ (forall (E : Engine) (fuel : nat) (bg fg : IColor) (ratio : number),
        implb (is_saturated (ensureContrastRatio fuel bg fg ratio))
              (is_white (rgba fg)) = true).
Proof.
  split.
  - intros fuel. unfold ensureContrastRatio.
    replace (contrastRatio (rgbRelativeLuminance (shr (rgba black) 8))
               (rgbRelativeLuminance (shr (rgba gray128) 8)) <? 25)%float
      with true by (vm_compute; reflexivity).
    replace (rgbRelativeLuminance (shr (rgba gray128) 8)
             <? rgbRelativeLuminance (shr (rgba black) 8))%float
      with false by (vm_compute; reflexivity).
    unfold increaseLuminance.
    rewrite (runs_into_fixpoint_diverges _ _ vars_eqb vars_eqb_eq 40);
      [reflexivity|vm_compute; reflexivity].
  - intros E fuel bg fg ratio. unfold ensureContrastRatio.
    destruct (_ <? ratio)%float; [|reflexivity].
    destruct (_ <? _)%float.
    + destruct (reduceLuminance fuel bg fg ratio) as [c|] eqn:Hc; [|reflexivity].
      apply reduceLuminance_result in Hc as (s & r & g & b & -> & Hs & Hle).
      cbn [option_map is_saturated]. rewrite (color_of_vars_rgba s r g b Hs).
      destruct Hs as [(Hr & Hg & Hb) _].
      destruct (is_white (pack r g b 255)) eqn:Hw; [|reflexivity].
      apply is_white_pack in Hw as (-> & -> & ->); try lia.
      pose proof (byte_range (rgba fg / 2 ^ 24)).
      pose proof (byte_range (rgba fg / 2 ^ 16)).
      pose proof (byte_range (rgba fg / 2 ^ 8)).
      unfold is_white. unfold red_byte, green_byte, blue_byte in *.
      replace (_ mod 256) with 255 by lia.
      replace ((rgba fg / 2 ^ 16) mod 256) with 255 by lia.
      replace ((rgba fg / 2 ^ 8) mod 256) with 255 by lia. reflexivity.
    + destruct (is_white (rgba fg)) eqn:Hfg; [apply implb_true_r|].
      destruct (increaseLuminance fuel bg fg ratio) as [c|] eqn:Hc; [|reflexivity].
      apply increaseLuminance_result in Hc as (s & r & g & b & -> & Hs & Hlt & _);
        [|exact Hfg].
      cbn [option_map is_saturated]. rewrite (color_of_vars_rgba s r g b Hs).
      destruct Hs as [(Hr & Hg & Hb) _].
      destruct (is_white (pack r g b 255)) eqn:Hw; [|reflexivity].
      apply is_white_pack in Hw; lia.
Qed.

(** With 255 iterations or more [reduceLuminance] returns. *)
Theorem reduceLuminance_terminates `{E : Engine}
  (k : nat) (bg fg : IColor) (ratio : number) :
  exists c, reduceLuminance (k + 255) bg fg ratio = Some c.
Proof.
  destruct (reduceLuminance_returns bg fg ratio (k + 255)) as (s & _ & _ & _ & Hret & _);
    [lia|].
  exists (color_of_vars s). exact Hret.
Qed.

(** ** Blending *)

Lemma forall_translucent_spec (p : Z -> bool) :
  forall_translucent p = true -> forall z, 0 <= z <= 254 -> p z = true.
Proof.
  intros Hall z Hz. apply (forall_below_spec 255 p Hall). simpl. lia.
Qed.

Lemma forall_byte2_spec (p : Z -> Z -> bool) :
  forall_byte (fun x => forall_byte (p x)) = true ->
  forall x y, 0 <= x <= 255 -> 0 <= y <= 255 -> p x y = true.
Proof.
  intros Hall x y Hx Hy.
  apply (forall_byte_spec (p x)); [|exact Hy].
  apply (forall_byte_spec (fun x => forall_byte (p x))); assumption.
Qed.

Lemma translucent_factor (alpha : Z) :
  0 <= alpha <= 254 -> (of_Z alpha / 255 =? 1)%float = false.
Proof.
  intros Hz. apply negb_true_iff. revert alpha Hz.
  apply (forall_translucent_spec (fun z => negb (of_Z z / 255 =? 1)%float)).
  vm_compute. reflexivity.
Qed.

Lemma sub_bytes (x y : Z) :
  0 <= x <= 255 -> 0 <= y <= 255 -> (of_Z x - of_Z y)%float = of_Z (x - y).
Proof.
  intros Hx Hy. apply float_eq.
  apply (forall_byte2_spec (fun x y =>
           PrimFloat.Leibniz.eqb (of_Z x - of_Z y)%float (of_Z (x - y))));
    [vm_cast_no_check (eq_refl true)|assumption|assumption].
Qed.

Lemma round_check_all (d alpha : Z) :
  -255 <= d <= 255 -> 0 <= alpha <= 254 -> round_check d alpha = true.
Proof.
  intros Hd Ha.
  apply (forall_translucent_spec (round_check d)); [|exact Ha].
  apply (forall_diff_spec (fun d => forall_translucent (round_check d)));
    [vm_cast_no_check (eq_refl true)|exact Hd].
Qed.

(** A byte plus a rounded difference, as numbers. *)
Lemma add_byte_diff (x k : Z) :
  0 <= x <= 255 -> -255 <= k <= 255 -> (of_Z x + of_Z k)%float = of_Z (x + k).
Proof.
  intros Hx Hk. apply float_eq.
  apply (forall_diff_spec (fun k => PrimFloat.Leibniz.eqb (of_Z x + of_Z k)%float
                                      (of_Z (x + k)))); [|exact Hk].
  apply (forall_byte_spec (fun x => forall_diff (fun k =>
           PrimFloat.Leibniz.eqb (of_Z x + of_Z k)%float (of_Z (x + k)))));
    [vm_cast_no_check (eq_refl true)|exact Hx].
Qed.

Lemma add_byte_neg_zero (x : Z) :
  0 <= x <= 255 -> (of_Z x + PrimFloat.neg_zero)%float = of_Z x.
Proof.
  intros Hx. apply float_eq. revert x Hx.
  apply (forall_byte_spec (fun x =>
           PrimFloat.Leibniz.eqb (of_Z x + PrimFloat.neg_zero)%float (of_Z x))).
  vm_compute. reflexivity.
Qed.

(** One channel of [blend]. *)
Lemma blend_channel_js (bgC fgC alpha : Z) :
  0 <= bgC <= 255 -> 0 <= fgC <= 255 -> 0 <= alpha <= 254 ->
  (of_Z bgC + Math_round ((of_Z fgC - of_Z bgC) * (of_Z alpha / 255)))%float
  = of_Z (blend_channel bgC fgC alpha)
  /\ 0 <= blend_channel bgC fgC alpha <= 255
  /\ blend_channel bgC fgC alpha
     = bgC + round_half_even ((fgC - bgC) * alpha) 255.
Proof.
  intros Hbg Hfg Ha.
  pose proof (round_check_all (fgC - bgC) alpha ltac:(lia) Ha) as Hc.
  unfold round_check in Hc.
  apply andb_true_iff in Hc as [Hc Hrange].
  apply andb_true_iff in Hc as [Hx Heven]. apply Z.eqb_eq in Heven.
  unfold blend_channel. rewrite sub_bytes by assumption.
  set (k := round_half_away ((fgC - bgC) * alpha) 255) in *.
  assert (Hk : -255 <= k <= 255 /\ 0 <= bgC + k <= 255).
  { rewrite orb_true_iff, !andb_true_iff, !Z.leb_le in Hrange. lia. }
  repeat split; try lia.
  apply orb_true_iff in Hx as [Hx|Hx].
  - apply float_eq in Hx. rewrite Hx. apply add_byte_diff; lia.
  - apply andb_true_iff in Hx as [Hz Hx]. apply Z.eqb_eq in Hz. apply float_eq in Hx.
    rewrite Hx, Hz, Z.add_0_r. apply add_byte_neg_zero. lia.
Qed.

(** C5 (X1). When the alpha byte [a] of the foreground is below 255, each of the
    red, green and blue bytes of [blend bg fg] is
    [bg + round ((fg - bg) * a / 255)], where the rounding is to the nearest
    integer (a tie never occurs: rounding ties away from zero and rounding
    ties to even give the same integer); each lies in 0..255, and the alpha
    byte of the result is 255.  For [a = 0] the bytes are those of [bg]. *)
Theorem blend_translucent `{E : Engine} (bg fg : IColor) :
  alpha_byte (rgba fg) < 255 ->
  let a := alpha_byte (rgba fg) in
  let r := blend_channel (red_byte (rgba bg)) (red_byte (rgba fg)) a in
  let g := blend_channel (green_byte (rgba bg)) (green_byte (rgba fg)) a in
  let b := blend_channel (blue_byte (rgba bg)) (blue_byte (rgba fg)) a in
  blend bg fg = {| css := toCss (of_Z r) (of_Z g) (of_Z b); rgba := pack r g b 255 |}
  /\ (red_byte (rgba (blend bg fg)) = r /\ green_byte (rgba (blend bg fg)) = g
      /\ blue_byte (rgba (blend bg fg)) = b /\ alpha_byte (rgba (blend bg fg)) = 255)
  /\ (0 <= r <= 255 /\ 0 <= g <= 255 /\ 0 <= b <= 255)
  /\ (r = red_byte (rgba bg)
          + round_half_even ((red_byte (rgba fg) - red_byte (rgba bg)) * a) 255
      /\ g = green_byte (rgba bg)
             + round_half_even ((green_byte (rgba fg) - green_byte (rgba bg)) * a) 255
      /\ b = blue_byte (rgba bg)
             + round_half_even ((blue_byte (rgba fg) - blue_byte (rgba bg)) * a) 255)
  /\ (a = 0 -> r = red_byte (rgba bg) /\ g = green_byte (rgba bg)
               /\ b = blue_byte (rgba bg)).
Proof.
  intros Hlt a r g b.
  assert (Ha : 0 <= a <= 254).
  { subst a. unfold alpha_byte in *. pose proof (byte_range (rgba fg)). lia. }
  pose proof (byte_range (rgba fg / 2 ^ 24)) as Hfr.
  pose proof (byte_range (rgba fg / 2 ^ 16)) as Hfg.
  pose proof (byte_range (rgba fg / 2 ^ 8)) as Hfb.
  pose proof (byte_range (rgba bg / 2 ^ 24)) as Hbr.
  pose proof (byte_range (rgba bg / 2 ^ 16)) as Hbg.
  pose proof (byte_range (rgba bg / 2 ^ 8)) as Hbb.
  destruct (blend_channel_js (red_byte (rgba bg)) (red_byte (rgba fg)) a Hbr Hfr Ha)
    as (Er & Rr & Vr).
  destruct (blend_channel_js (green_byte (rgba bg)) (green_byte (rgba fg)) a Hbg Hfg Ha)
    as (Eg & Rg & Vg).
  destruct (blend_channel_js (blue_byte (rgba bg)) (blue_byte (rgba fg)) a Hbb Hfb Ha)
    as (Eb & Rb & Vb).
  fold r in Er, Rr, Vr. fold g in Eg, Rg, Vg. fold b in Eb, Rb, Vb.
  assert (Hblend : blend bg fg
                   = {| css := toCss (of_Z r) (of_Z g) (of_Z b); rgba := pack r g b 255 |}).
  { unfold blend.
    rewrite alpha_byte_js, !red_byte_js, !green_byte_js, !blue_byte_js. fold a.
    rewrite (translucent_factor a Ha), Er, Eg, Eb.
    change 255%float with (of_Z 255). rewrite toRgba_bytes by lia. reflexivity. }
  rewrite Hblend; cbn [rgba].
  destruct (pack_bytes r g b 255 Rr Rg Rb ltac:(lia)) as (Pr & Pg & Pb & Pa).
  assert (Hzero : forall x y, blend_channel x y 0 = x).
  { intros x y. unfold blend_channel. rewrite Z.mul_0_r.
    change (round_half_away 0 255) with 0. lia. }
  split; [reflexivity|]. split; [tauto|]. split; [tauto|]. split; [tauto|].
  intros Ha0. subst r g b. rewrite Ha0, !Hzero. tauto.
Qed.

Lemma blend_translucent_witness :
  alpha_byte (pack 255 255 255 128) < 255
  /\ @blend Sample.engine black {| css := "#ffffff"; rgba := pack 255 255 255 128 |}
     = {| css := "#808080"; rgba := pack 128 128 128 255 |}.
Proof.
  split; [reflexivity|].
  pose proof (@blend_translucent Sample.engine black
                {| css := "#ffffff"; rgba := pack 255 255 255 128 |}) as H.
  cbv zeta in H. destruct H as [H _]; [reflexivity|].
  rewrite H. vm_compute. reflexivity.
Defined.

(** ** Integers as numbers *)

Lemma digits2_pos_size (p : positive) : digits2_pos p = Pos.size p.
Proof. induction p; simpl; congruence. Qed.

Lemma digits2_pos_log2 (p : positive) : Z.pos (digits2_pos p) = Z.log2 (Z.pos p) + 1.
Proof.
  rewrite digits2_pos_size. destruct p; simpl; lia.
Qed.

Lemma digits2_pos_bound (p : positive) (n : Z) :
  0 < n -> Z.pos p < 2 ^ n -> Z.pos (digits2_pos p) <= n.
Proof.
  intros Hn Hp. rewrite digits2_pos_log2.
  assert (Z.log2 (Z.pos p) < n) by (apply Z.log2_lt_pow2; lia). lia.
Qed.

Lemma iter_xO_pos (p k : positive) : Z.pos (Pos.iter xO p k) = Z.pos p * 2 ^ Z.pos k.
Proof.
  induction k as [|k IH] using Pos.peano_ind.
  - simpl. lia.
  - rewrite Pos.iter_succ, Pos2Z.inj_xO, IH, Pos2Z.inj_succ, Z.pow_succ_r by lia. ring.
Qed.

Lemma iter_xO_digits (p k : positive) :
  digits2_pos (Pos.iter xO p k) = (digits2_pos p + k)%positive.
Proof.
  induction k as [|k IH] using Pos.peano_ind.
  - simpl. lia.
  - rewrite Pos.iter_succ. simpl. rewrite IH. lia.
Qed.

(** Rounding leaves a mantissa of 53 digits as it is. *)
Lemma binary_round_aux_exact (m : positive) (e : Z) :
  Z.pos (digits2_pos m) = 53 -> -1074 <= e <= 971 ->
  binary_round_aux prec emax false (Z.pos m) e loc_Exact = S754_finite false m e.
Proof.
  intros Hd He.
  assert (Hfexp : fexp prec emax (53 + e) - e = 0).
  { unfold fexp, SpecFloat.emin, prec, emax. lia. }
  unfold binary_round_aux, shr_fexp.
  cbn [Zdigits2 shr_record_of_loc]. rewrite Hd, Hfexp.
  cbn [SpecFloat.shr shr_m loc_of_shr_record round_nearest_even Zdigits2 shr_record_of_loc].
  rewrite Hd, Hfexp. cbn [SpecFloat.shr shr_m].
  replace (e <=? emax - prec) with true; [reflexivity|].
  symmetry. apply Z.leb_le. unfold emax, prec. lia.
Qed.

Lemma valid_binary_53 (m : positive) (e : Z) :
  Z.pos (digits2_pos m) = 53 -> -1074 <= e <= 971 ->
  valid_binary (S754_finite false m e) = true.
Proof.
  intros Hd He. unfold valid_binary, bounded, canonical_mantissa. rewrite Hd.
  apply andb_true_iff. split.
  - apply Z.eqb_eq. unfold fexp, SpecFloat.emin, prec, emax. lia.
  - apply Z.leb_le. unfold emax, prec. lia.
Qed.

(** A positive integer below [2^53] is a number: its mantissa is the integer
    shifted to 53 digits. *)
Lemma binary_normalize_exact (p : positive) :
  Z.pos p < 2 ^ 53 ->
  exists (m : positive) (e : Z),
    binary_normalize prec emax (Z.pos p) 0 false = S754_finite false m e
    /\ valid_binary (S754_finite false m e) = true
    /\ -52 <= e <= 0 /\ Z.pos m = Z.pos p * 2 ^ (- e).
Proof.
  intros Hp.
  pose proof (digits2_pos_bound p 53 ltac:(lia) Hp) as Hd.
  assert (H1 : 1 <= Z.pos (digits2_pos p)) by lia.
  unfold binary_normalize, binary_round.
  assert (Hfexp : fexp prec emax (Z.pos (digits2_pos p) + 0) = Z.pos (digits2_pos p) - 53).
  { unfold fexp, SpecFloat.emin, prec, emax. lia. }
  rewrite Hfexp. unfold shl_align.
  destruct (Z.pos (digits2_pos p) - 53 - 0) as [|q|q] eqn:Hq; [|lia|].
  - (* 53 digits already *)
    assert (Hd53 : Z.pos (digits2_pos p) = 53) by lia.
    exists p, 0. rewrite binary_round_aux_exact by lia.
    rewrite valid_binary_53 by lia. repeat split; try lia.
  - (* fewer digits: shift left *)
    assert (Hq' : Z.pos q = 53 - Z.pos (digits2_pos p)) by lia.
    set (m := Pos.iter xO p q).
    assert (Hdm : Z.pos (digits2_pos m) = 53).
    { unfold m. rewrite iter_xO_digits. lia. }
    exists m, (Z.pos (digits2_pos p) - 53).
    rewrite binary_round_aux_exact by lia.
    rewrite valid_binary_53 by lia. repeat split; try lia.
    unfold m. rewrite iter_xO_pos. f_equal. f_equal. lia.
Qed.

Lemma Prim2SF_of_Z (p : positive) :
  Z.pos p < 2 ^ 53 ->
  exists (m : positive) (e : Z),
    Prim2SF (of_Z (Z.pos p)) = S754_finite false m e
    /\ -52 <= e <= 0 /\ Z.pos m = Z.pos p * 2 ^ (- e).
Proof.
  intros Hp.
  destruct (binary_normalize_exact p Hp) as (m & e & Hn & Hv & He & Hm).
  exists m, e. unfold of_Z. rewrite Hn, Prim2SF_SF2Prim by exact Hv. auto.
Qed.

(** Truncation gives a nonnegative integer below [2^53] back. *)
Lemma truncate_of_Z (z : Z) : 0 <= z < 2 ^ 53 -> truncate (of_Z z) = z.
Proof.
  intros Hz. destruct z as [|p|p]; [reflexivity| |lia].
  destruct (Prim2SF_of_Z p ltac:(lia)) as (m & e & Hsf & He & Hm).
  unfold truncate. rewrite Hsf.
  destruct (0 <=? e) eqn:Hle.
  - apply Z.leb_le in Hle. assert (e = 0) by lia. subst e.
    rewrite Z.shiftl_0_r. simpl in Hm. lia.
  - rewrite Z.shiftr_div_pow2 by lia. rewrite Hm.
    apply Z.div_mul. apply Z.pow_nonzero; lia.
Qed.

(** ** Parsing a colour *)

Lemma hex_digit_not_space (c : ascii) (d : N) :
  HexString.ascii_to_digit c = Some d ->
  is_white_space c = false /\ c <> "-"%char /\ c <> "+"%char
  /\ c <> "x"%char /\ c <> "X"%char /\ (Z.of_N d <= 15).
Proof.
  destruct c as [[] [] [] [] [] [] [] []]; vm_compute; intros H;
    try discriminate H; injection H as <-;
    repeat split; try discriminate; intros [=].
Qed.

Lemma hex_prefix_all (s : string) :
  all_hex_digits s = true ->
  forall a, hex_prefix s (Some a) = Some (hex_number_from a s).
Proof.
  induction s as [|c t IH]; simpl; intros Hall a; [reflexivity|].
  destruct (HexString.ascii_to_digit c) as [d|]; [|discriminate Hall].
  apply IH. exact Hall.
Qed.

Lemma hex_number_from_bounds (s : string) :
  all_hex_digits s = true ->
  forall a, 0 <= a ->
    a * 16 ^ Z.of_nat (String.length s) <= hex_number_from a s
    < (a + 1) * 16 ^ Z.of_nat (String.length s).
Proof.
  induction s as [|c t IH]; intros Hall a Ha.
  - simpl. lia.
  - simpl in Hall. cbn [hex_number_from String.length].
    destruct (HexString.ascii_to_digit c) as [d|] eqn:Hd; [|discriminate Hall].
    destruct (hex_digit_not_space c d Hd) as (_ & _ & _ & _ & _ & Hd15).
    specialize (IH Hall (16 * a + Z.of_N d) ltac:(lia)).
    rewrite Nat2Z.inj_succ, Z.pow_succ_r by lia.
    assert (0 < 16 ^ Z.of_nat (String.length t)) by (apply Z.pow_pos_nonneg; lia).
    nia.
Qed.

(** [parseInt] of a string of hexadecimal digits is the integer they write. *)
Lemma parseInt16_hex_number (s : string) :
  is_hex_number s = true -> parseInt16 s = of_Z (hex_number s).
Proof.
  destruct s as [|c t]; [discriminate|]. cbn [is_hex_number].
  intros Hall. pose proof Hall as Hall'. cbn [all_hex_digits] in Hall.
  destruct (HexString.ascii_to_digit c) as [d|] eqn:Hd; [|discriminate Hall].
  destruct (hex_digit_not_space c d Hd) as (Hws & Hm & Hp & Hx & HX & _).
  unfold parseInt16. cbn [skip_white_space]. rewrite Hws.
  assert (Hsign : strip_sign (String c t) = (false, String c t)).
  { unfold strip_sign.
    destruct c as [[] [] [] [] [] [] [] []]; try reflexivity; congruence. }
  rewrite Hsign.
  assert (H0x : strip_0x (String c t) = String c t).
  { unfold strip_0x. destruct t as [|c' t']; [destruct c as [[] [] [] [] [] [] [] []]; reflexivity|].
    cbn [all_hex_digits] in Hall.
    destruct (HexString.ascii_to_digit c') as [d'|] eqn:Hd'; [|discriminate Hall].
    destruct (hex_digit_not_space c' d' Hd') as (_ & _ & _ & Hx' & HX' & _).
    destruct c as [[] [] [] [] [] [] [] []]; try reflexivity;
      destruct c' as [[] [] [] [] [] [] [] []]; try reflexivity; congruence. }
  rewrite H0x. cbn [hex_prefix]. rewrite Hd.
  rewrite hex_prefix_all by exact Hall.
  unfold hex_number. cbn [hex_number_from]. rewrite Hd. reflexivity.
Qed.

Lemma IColor_eq (a b : IColor) : css a = css b -> rgba a = rgba b -> a = b.
Proof. destruct a, b; simpl; congruence. Qed.

Lemma lor_255_low (x : Z) : Z.lor (x * 2 ^ 8) 255 = x * 2 ^ 8 + 255.
Proof. apply lor_disjoint; lia. Qed.

(** The packed value [fromCss] builds from what [parseInt] read. *)
Lemma fromCss_rgba_of_Z (s : string) (v : Z) :
  0 <= v < 2 ^ 53 -> parseInt16 (slice1 s) = of_Z v ->
  rgba (fromCss s) = (v mod 2 ^ 24) * 2 ^ 8 + 255.
Proof.
  intros Hv Hparse. unfold fromCss; cbn [rgba]. rewrite Hparse, truncate_of_Z by exact Hv.
  unfold ushr0, wrap_uint32. rewrite bor_mod, shl_mod by lia.
  change (255 mod 2 ^ 32) with 255.
  change (2 ^ 32) with (2 ^ 24 * 2 ^ 8).
  rewrite Z.mul_mod_distr_r by lia. apply lor_255_low.
Qed.

(** X4. [fromCss] drops the first character of its argument unchecked and reads
    what follows as one hexadecimal integer: for up to 13 digits, the packed
    value is that integer's low 24 bits followed by the alpha byte 255, so
    digits beyond the last six are lost. *)
Theorem fromCss_hex_digits (c : ascii) (ds : string) :
  is_hex_number ds = true -> (String.length ds <= 13)%nat ->
  fromCss (String c ds)
  = {| css := String c ds; rgba := (hex_number ds mod 2 ^ 24) * 2 ^ 8 + 255 |}.
Proof.
  intros Hhex Hlen.
  assert (Hall : all_hex_digits ds = true).
  { destruct ds; [discriminate Hhex|exact Hhex]. }
  pose proof (hex_number_from_bounds ds Hall 0 ltac:(lia)) as Hb. fold (hex_number ds) in Hb.
  assert (Hpow : 16 ^ Z.of_nat (String.length ds) <= 16 ^ 13).
  { apply Z.pow_le_mono_r; lia. }
  assert (H52 : 16 ^ 13 = 2 ^ 52) by reflexivity.
  assert (H53 : 2 ^ 53 = 2 * 2 ^ 52) by reflexivity.
  apply IColor_eq; [reflexivity|]. cbn [rgba].
  apply fromCss_rgba_of_Z; [lia|]. cbn [slice1].
  apply parseInt16_hex_number. exact Hhex.
Qed.

Lemma fromCss_hex_digits_witness :
  fromCss "x1234567" = {| css := "x1234567"; rgba := pack 35 69 103 255 |}.
Proof.
  rewrite (fromCss_hex_digits "x" "1234567"); [reflexivity|reflexivity|simpl; lia].
Defined.

(** X5. Whatever string it is given, [fromCss] keeps the string as [css] and
    returns an unsigned 32-bit packed value whose alpha byte is 255; when
    [parseInt] finds no digit (NaN), the packed value is 255, opaque black. *)
Theorem fromCss_any_string (s : string) :
  css (fromCss s) = s
  /\ 0 <= rgba (fromCss s) < 2 ^ 32
  /\ alpha_byte (rgba (fromCss s)) = 255
  /\ (parseInt16 (slice1 s) = nan -> rgba (fromCss s) = 255).
Proof.
  split; [reflexivity|]. unfold fromCss; cbn [rgba]. unfold ushr0, wrap_uint32.
  split; [apply Z.mod_pos_bound; lia|]. split.
  - unfold alpha_byte. rewrite bor_mod. change (255 mod 2 ^ 32) with 255.
    set (x := shl _ _ mod _).
    change 256 with (2 ^ 8). rewrite lor_mod_pow2 by lia.
    change (255 mod 2 ^ 8) with 255. change (2 ^ 8) with 256.
    apply lor_byte_255, byte_range.
  - intros Hnan. rewrite Hnan. reflexivity.
Qed.

Lemma fromCss_any_string_witness :
  parseInt16 (slice1 "#ggg") = nan /\ rgba (fromCss "#ggg") = 255.
Proof.
  split; [reflexivity|].
  apply (proj2 (proj2 (proj2 (fromCss_any_string "#ggg")))). reflexivity.
Defined.

(** ** Printing a colour *)

Section Printing.

Context `{E : Engine}.

Lemma toPaddedHex_byte (z : Z) :
  0 <= z <= 255 -> toPaddedHex (of_Z z) = two_hex z.
Proof.
  intros Hz. apply String.eqb_eq. revert z Hz.
  apply (forall_byte_spec (fun z => String.eqb (toPaddedHex (of_Z z)) (two_hex z))).
  vm_compute. reflexivity.
Qed.

Lemma toCss_bytes (r g b : Z) :
  0 <= r <= 255 -> 0 <= g <= 255 -> 0 <= b <= 255 ->
  toCss (of_Z r) (of_Z g) (of_Z b)
  = String "#" (two_hex r ++ two_hex g ++ two_hex b).
Proof.
  intros Hr Hg Hb. unfold toCss. now rewrite !toPaddedHex_byte by assumption.
Qed.

End Printing.

Lemma hex_char_digit (d : Z) :
  0 <= d <= 15 ->
  HexString.ascii_to_digit (hex_char d) = Some (Z.to_N d)
  /\ is_lower_hex (hex_char d) = true.
Proof.
  intros Hd.
  assert (Hcases : d = 0 \/ d = 1 \/ d = 2 \/ d = 3 \/ d = 4 \/ d = 5 \/ d = 6 \/ d = 7
                   \/ d = 8 \/ d = 9 \/ d = 10 \/ d = 11 \/ d = 12 \/ d = 13 \/ d = 14
                   \/ d = 15) by lia.
  repeat (destruct Hcases as [->|Hcases]; [split; reflexivity|]).
  subst d. split; reflexivity.
Qed.

Lemma nibbles (z : Z) : 0 <= z <= 255 -> 0 <= z / 16 <= 15 /\ 0 <= z mod 16 <= 15.
Proof. intros. Z.to_euclidean_division_equations. lia. Qed.

Lemma six_digits (r g b : Z) :
  0 <= r <= 255 -> 0 <= g <= 255 -> 0 <= b <= 255 ->
  let ds := (two_hex r ++ two_hex g ++ two_hex b)%string in
  is_hex_number ds = true /\ String.length ds = 6%nat
  /\ hex_number ds = r * 2 ^ 16 + g * 2 ^ 8 + b
  /\ is_css_rgb (String "#" ds) = true.
Proof.
  intros Hr Hg Hb ds. subst ds. unfold two_hex.
  destruct (nibbles r Hr) as [Hr1 Hr2]. destruct (nibbles g Hg) as [Hg1 Hg2].
  destruct (nibbles b Hb) as [Hb1 Hb2].
  destruct (hex_char_digit _ Hr1) as [Dr1 Lr1]. destruct (hex_char_digit _ Hr2) as [Dr2 Lr2].
  destruct (hex_char_digit _ Hg1) as [Dg1 Lg1]. destruct (hex_char_digit _ Hg2) as [Dg2 Lg2].
  destruct (hex_char_digit _ Hb1) as [Db1 Lb1]. destruct (hex_char_digit _ Hb2) as [Db2 Lb2].
  cbn [String.append is_hex_number all_hex_digits hex_number hex_number_from
       String.length is_css_rgb].
  unfold hex_number. cbn [hex_number_from].
  rewrite Dr1, Dr2, Dg1, Dg2, Db1, Db2, Lr1, Lr2, Lg1, Lg2, Lb1, Lb2.
  repeat split. rewrite !Z2N.id by lia.
  Z.to_euclidean_division_equations. lia.
Qed.

(** ** Round trips *)

Lemma pack_low24 (r g b : Z) :
  0 <= r <= 255 -> 0 <= g <= 255 -> 0 <= b <= 255 ->
  ((r * 2 ^ 16 + g * 2 ^ 8 + b) mod 2 ^ 24) * 2 ^ 8 + 255 = pack r g b 255.
Proof.
  intros Hr Hg Hb. rewrite Z.mod_small by lia. unfold pack. ring.
Qed.

Lemma fromCss_toCss `{E : Engine} (r g b : Z) :
  0 <= r <= 255 -> 0 <= g <= 255 -> 0 <= b <= 255 ->
  is_css_rgb (toCss (of_Z r) (of_Z g) (of_Z b)) = true
  /\ fromCss (toCss (of_Z r) (of_Z g) (of_Z b))
     = {| css := toCss (of_Z r) (of_Z g) (of_Z b); rgba := pack r g b 255 |}.
Proof.
  intros Hr Hg Hb. rewrite toCss_bytes by assumption.
  destruct (six_digits r g b Hr Hg Hb) as (Hhex & Hlen & Hval & Hcss).
  split; [exact Hcss|].
  apply IColor_eq; [reflexivity|]. cbn [rgba].
  rewrite (fromCss_rgba_of_Z _ (hex_number (two_hex r ++ two_hex g ++ two_hex b))).
  - rewrite Hval. apply pack_low24; assumption.
  - rewrite Hval. lia.
  - cbn [slice1]. apply parseInt16_hex_number. exact Hhex.
Qed.

(** X3. [toCss] of three bytes is a string of the pattern [#[0-9a-f]{6}], and
    [fromCss] reads it back as these bytes with the alpha byte 255. *)
Theorem toCss_fromCss_round_trip `{E : Engine} (r g b : Z) :
  0 <= r <= 255 -> 0 <= g <= 255 -> 0 <= b <= 255 ->
  let s := toCss (of_Z r) (of_Z g) (of_Z b) in
  is_css_rgb s = true
  /\ fromCss s = {| css := s; rgba := pack r g b 255 |}
  /\ red_byte (rgba (fromCss s)) = r /\ green_byte (rgba (fromCss s)) = g
  /\ blue_byte (rgba (fromCss s)) = b /\ alpha_byte (rgba (fromCss s)) = 255.
Proof.
  intros Hr Hg Hb s. subst s.
  destruct (fromCss_toCss r g b Hr Hg Hb) as [Hpat Hfrom].
  rewrite Hfrom. cbn [rgba].
  destruct (pack_bytes r g b 255 Hr Hg Hb ltac:(lia)) as (Pr & Pg & Pb & Pa).
  repeat split; assumption.
Qed.

Lemma toCss_fromCss_round_trip_witness :
  @toCss Sample.engine (of_Z 1) (of_Z 171) (of_Z 255) = "#01abff"%string
  /\ fromCss (@toCss Sample.engine (of_Z 1) (of_Z 171) (of_Z 255))
     = {| css := "#01abff"; rgba := pack 1 171 255 255 |}.
Proof.
  split; [vm_compute; reflexivity|].
  pose proof (@toCss_fromCss_round_trip Sample.engine 1 171 255
                ltac:(lia) ltac:(lia) ltac:(lia)) as H.
  cbv zeta in H. destruct H as (_ & H & _). rewrite H.
  f_equal.
Defined.

Section Synchronized.

Context `{E : Engine}.

Lemma synchronized_bytes (r g b : Z) :
  0 <= r <= 255 -> 0 <= g <= 255 -> 0 <= b <= 255 ->
  let c := {| css := toCss (of_Z r) (of_Z g) (of_Z b); rgba := pack r g b 255 |} in
  fromCss (css c) = c /\ is_css_rgb (css c) = true.
Proof.
  intros Hr Hg Hb c. subst c. cbn [css].
  destruct (fromCss_toCss r g b Hr Hg Hb) as (Hpat & Hfrom).
  split; assumption.
Qed.

Lemma color_of_vars_bytes (s : vars) (r g b : Z) :
  holds s r g b ->
  color_of_vars s = {| css := toCss (of_Z r) (of_Z g) (of_Z b); rgba := pack r g b 255 |}.
Proof.
  intros Hs. apply IColor_eq; cbn [css rgba].
  - destruct Hs as [_ (Er & Eg & Eb)]. unfold color_of_vars; cbn [css].
    now rewrite Er, Eg, Eb.
  - apply color_of_vars_rgba. exact Hs.
Qed.

(** The colour [increaseLuminance] returns holds bytes. *)
Lemma increaseLuminance_holds (fuel : nat) (bg fg c : IColor) (ratio : number) :
  increaseLuminance fuel bg fg ratio = Some c ->
  exists s r g b, c = color_of_vars s /\ holds s r g b.
Proof.
  unfold increaseLuminance. intros Hc.
  destruct (while fuel _ _ _) as [s|] eqn:Hw; [|discriminate Hc].
  injection Hc as <-.
  apply (while_exit _ _ (fun s => exists r g b, holds s r g b)) in Hw
    as [(r & g & b & Hs) _].
  - exists s, r, g, b. auto.
  - intros t (r1 & g1 & b1 & Ht) _.
    exists (increase_step r1), (increase_step g1), (increase_step b1).
    apply increase_body_holds. exact Ht.
  - eexists _, _, _. apply loop_init_holds.
Qed.

(** The colour [blend] builds for a translucent foreground. *)
Lemma blend_translucent_shape (bg fg : IColor) :
  alpha_byte (rgba fg) < 255 ->
  exists r g b,
    (0 <= r <= 255 /\ 0 <= g <= 255 /\ 0 <= b <= 255)
    /\ blend bg fg
       = {| css := toCss (of_Z r) (of_Z g) (of_Z b); rgba := pack r g b 255 |}.
Proof.
  intros Hlt. set (a := alpha_byte (rgba fg)).
  assert (Ha : 0 <= a <= 254).
  { subst a. unfold alpha_byte in *. pose proof (byte_range (rgba fg)). lia. }
  destruct (blend_channel_js (red_byte (rgba bg)) (red_byte (rgba fg)) a
              (byte_range _) (byte_range _) Ha) as (Er & Rr & _).
  destruct (blend_channel_js (green_byte (rgba bg)) (green_byte (rgba fg)) a
              (byte_range _) (byte_range _) Ha) as (Eg & Rg & _).
  destruct (blend_channel_js (blue_byte (rgba bg)) (blue_byte (rgba fg)) a
              (byte_range _) (byte_range _) Ha) as (Eb & Rb & _).
  eexists _, _, _. split; [repeat split; [apply Rr|apply Rr|apply Rg|apply Rg|apply Rb|apply Rb]|].
  unfold blend.
  rewrite alpha_byte_js, !red_byte_js, !green_byte_js, !blue_byte_js. fold a.
  rewrite (translucent_factor a Ha), Er, Eg, Eb.
  change 255%float with (of_Z 255). rewrite toRgba_bytes by lia. reflexivity.
Qed.

End Synchronized.

(** X6. The colours [reduceLuminance] and [increaseLuminance] return, and the
    colour [blend] builds for a foreground whose alpha byte is below 255, have
    their two forms in step: [css] matches [#[0-9a-f]{6}] and [fromCss] of it
    is the colour itself. *)
Theorem results_are_synchronized `{E : Engine}
  (fuel : nat) (bg fg c : IColor) (ratio : number) :
  reduceLuminance fuel bg fg ratio = Some c
  \/ increaseLuminance fuel bg fg ratio = Some c
  \/ (alpha_byte (rgba fg) < 255 /\ c = blend bg fg) ->
  fromCss (css c) = c /\ is_css_rgb (css c) = true.
Proof.
  intros [Hc|[Hc|[Ha ->]]].
  - apply reduceLuminance_result in Hc as (s & r & g & b & -> & Hs & _).
    rewrite (color_of_vars_bytes s r g b Hs).
    destruct Hs as [(Hr & Hg & Hb) _]. apply synchronized_bytes; assumption.
  - apply increaseLuminance_holds in Hc as (s & r & g & b & -> & Hs).
    rewrite (color_of_vars_bytes s r g b Hs).
    destruct Hs as [(Hr & Hg & Hb) _]. apply synchronized_bytes; assumption.
  - destruct (blend_translucent_shape bg fg Ha) as (r & g & b & (Hr & Hg & Hb) & Hblend).
    rewrite Hblend. apply synchronized_bytes; assumption.
Qed.

Lemma results_are_synchronized_witness :
  fromCss (css (@blend Sample.engine black
                  {| css := "#ffffff"; rgba := pack 255 255 255 128 |}))
  = @blend Sample.engine black {| css := "#ffffff"; rgba := pack 255 255 255 128 |}.
Proof.
  apply (@results_are_synchronized Sample.engine 0 black
           {| css := "#ffffff"; rgba := pack 255 255 255 128 |} _ 1%float).
  right. right. split; reflexivity.
Defined.

(** ** What the loops return *)

Lemma Some_inj {A : Type} (a b : A) : Some a = Some b -> a = b.
Proof. intros H. injection H as H. exact H. Qed.

Lemma increase_step_grows (z : Z) : 0 <= z <= 255 -> z <= increase_step z.
Proof. unfold increase_step. intros. Z.to_euclidean_division_equations. lia. Qed.

Lemma reduce_step_shrinks (z : Z) : 0 <= z <= 255 -> reduce_step z <= z.
Proof. unfold reduce_step. intros. Z.to_euclidean_division_equations. lia. Qed.

Section Returned.

Context `{E : Engine}.

Lemma loop_init_in_step (bg fg : IColor) :
  in_step bg
    (loop_init (of_Z (band (shr (rgba bg) 24) 255)) (of_Z (band (shr (rgba bg) 16) 255))
               (of_Z (band (shr (rgba bg) 8) 255)) fg)
    (red_byte (rgba fg)) (green_byte (rgba fg)) (blue_byte (rgba fg)).
Proof.
  split; [apply loop_init_holds|].
  unfold loop_init, measured_contrast; cbn [cr].
  now rewrite !red_byte_js, !green_byte_js, !blue_byte_js.
Qed.

Lemma reduce_body_in_step (bg : IColor) (s : vars) (r g b : Z) :
  in_step bg s r g b ->
  in_step bg
    (reduce_body (of_Z (band (shr (rgba bg) 24) 255)) (of_Z (band (shr (rgba bg) 16) 255))
                 (of_Z (band (shr (rgba bg) 8) 255)) s)
    (reduce_step r) (reduce_step g) (reduce_step b).
Proof.
  intros [Hs _]. split; [apply reduce_body_holds; exact Hs|].
  destruct Hs as [(Hr & Hg & Hb) (Er & Eg & Eb)].
  unfold reduce_body, measured_contrast; cbn [cr].
  rewrite Er, Eg, Eb, !reduce_channel by assumption.
  now rewrite !red_byte_js, !green_byte_js, !blue_byte_js.
Qed.

Lemma increase_body_in_step (bg : IColor) (s : vars) (r g b : Z) :
  in_step bg s r g b ->
  in_step bg
    (increase_body (of_Z (band (shr (rgba bg) 24) 255)) (of_Z (band (shr (rgba bg) 16) 255))
                   (of_Z (band (shr (rgba bg) 8) 255)) s)
    (increase_step r) (increase_step g) (increase_step b).
Proof.
  intros [Hs _]. split; [apply increase_body_holds; exact Hs|].
  destruct Hs as [(Hr & Hg & Hb) (Er & Eg & Eb)].
  unfold increase_body, measured_contrast; cbn [cr].
  rewrite Er, Eg, Eb, !increase_channel by assumption.
  now rewrite !red_byte_js, !green_byte_js, !blue_byte_js.
Qed.

Lemma color_of_vars_channels (s : vars) (r g b : Z) :
  holds s r g b ->
  red_byte (rgba (color_of_vars s)) = r /\ green_byte (rgba (color_of_vars s)) = g
  /\ blue_byte (rgba (color_of_vars s)) = b.
Proof.
  intros Hs. rewrite (color_of_vars_rgba s r g b Hs).
  destruct Hs as [(Hr & Hg & Hb) _].
  destruct (pack_bytes r g b 255 Hr Hg Hb ltac:(lia)) as (Pr & Pg & Pb & _). auto.
Qed.

End Returned.

(** X14. Given 255 iterations or more, [reduceLuminance] returns a colour; no
    channel of it is above the foreground's, and either the contrast the loop
    measures for it is not below the ratio or it is black. *)
Theorem reduceLuminance_darkens `{E : Engine}
  (fuel : nat) (bg fg : IColor) (ratio : number) :
  (255 <= fuel)%nat ->
  exists c,
    reduceLuminance fuel bg fg ratio = Some c
    /\ red_byte (rgba c) <= red_byte (rgba fg)
    /\ green_byte (rgba c) <= green_byte (rgba fg)
    /\ blue_byte (rgba c) <= blue_byte (rgba fg)
    /\ ((measured_contrast bg (red_byte (rgba c)) (green_byte (rgba c))
                           (blue_byte (rgba c)) <? ratio)%float = false
        \/ (red_byte (rgba c) = 0 /\ green_byte (rgba c) = 0 /\ blue_byte (rgba c) = 0)).
Proof.
  intros Hfuel.
  destruct (reduceLuminance_returns bg fg ratio fuel Hfuel)
    as (s & r & g & b & Hret & Hs & Hr & Hg & Hb).
  exists (color_of_vars s). split; [exact Hret|].
  destruct (color_of_vars_channels s r g b Hs) as (-> & -> & ->).
  repeat (split; [assumption|]).
  unfold reduceLuminance in Hret.
  destruct (while fuel _ _ _) as [s'|] eqn:Hw; [|discriminate Hret].
  apply (while_exit _ _ (fun s => exists r g b, in_step bg s r g b)) in Hw
    as [(r' & g' & b' & Hs' & Hcr) Hcond].
  - cbn [option_map] in Hret.
    assert (Hch : red_byte (rgba (color_of_vars s')) = r /\ green_byte (rgba (color_of_vars s')) = g
                  /\ blue_byte (rgba (color_of_vars s')) = b).
    { apply Some_inj in Hret. rewrite Hret. apply color_of_vars_channels. exact Hs. }
    destruct (color_of_vars_channels s' r' g' b' Hs') as (Cr & Cg & Cb).
    assert (r' = r /\ g' = g /\ b' = b) as (-> & -> & ->) by (intuition congruence).
    rewrite (reduce_cond_holds ratio s' r g b Hs'), Hcr in Hcond.
    apply andb_false_iff in Hcond as [Hcond|Hcond]; [left; exact Hcond|right].
    rewrite !orb_false_iff, !Z.ltb_ge in Hcond.
    destruct Hs as [(Br & Bg & Bb) _]. lia.
  - intros t (r1 & g1 & b1 & Ht) _.
    exists (reduce_step r1), (reduce_step g1), (reduce_step b1).
    apply reduce_body_in_step. exact Ht.
  - eexists _, _, _. apply loop_init_in_step.
Qed.

Lemma reduceLuminance_darkens_witness :
  exists c, @reduceLuminance Sample.engine 255 white gray128 4.5%float = Some c
            /\ red_byte (rgba c) <= red_byte (rgba gray128).
Proof.
  destruct (@reduceLuminance_darkens Sample.engine 255 white gray128 4.5%float)
    as (c & Hc & Hr & _); [lia|].
  exists c. split; assumption.
Defined.

(** X15. When [increaseLuminance] returns, no channel of the colour is below the
    foreground's; a foreground that is not white gives a colour that is not
    white and for which the contrast the loop measures is not below the
    ratio: the loop never ends by saturating. *)
Theorem increaseLuminance_brightens `{E : Engine}
  (fuel : nat) (bg fg c : IColor) (ratio : number) :
  increaseLuminance fuel bg fg ratio = Some c ->
  red_byte (rgba fg) <= red_byte (rgba c)
  /\ green_byte (rgba fg) <= green_byte (rgba c)
  /\ blue_byte (rgba fg) <= blue_byte (rgba c)
  /\ (is_white (rgba fg) = false ->
      is_white (rgba c) = false
      /\ (measured_contrast bg (red_byte (rgba c)) (green_byte (rgba c))
                            (blue_byte (rgba c)) <? ratio)%float = false).
Proof.
  unfold increaseLuminance. intros Hc.
  destruct (while fuel _ _ _) as [s|] eqn:Hw; [|discriminate Hc].
  cbn [option_map] in Hc. apply Some_inj in Hc. subst c.
  apply (while_exit _ _
           (fun s => exists r g b,
              in_step bg s r g b
              /\ red_byte (rgba fg) <= r /\ green_byte (rgba fg) <= g
              /\ blue_byte (rgba fg) <= b
              /\ (is_white (rgba fg) = false -> r < 255 \/ g < 255 \/ b < 255))) in Hw
    as [(r & g & b & (Hs & Hcr) & Hr & Hg & Hb & Hnw) Hcond].
  - destruct (color_of_vars_channels s r g b Hs) as (-> & -> & ->).
    repeat (split; [assumption|]).
    intros Hfg. specialize (Hnw Hfg). split.
    + rewrite (color_of_vars_rgba s r g b Hs).
      destruct Hs as [(Br & Bg & Bb) _].
      destruct (is_white (pack r g b 255)) eqn:Hw'; [|reflexivity].
      apply is_white_pack in Hw'; lia.
    + rewrite (increase_cond_holds ratio s r g b Hs), Hcr in Hcond.
      apply andb_false_iff in Hcond as [Hcond|Hcond]; [exact Hcond|].
      rewrite !orb_false_iff, !Z.ltb_ge in Hcond. lia.
  - intros t (r1 & g1 & b1 & Ht & Hr & Hg & Hb & Hnw) _.
    exists (increase_step r1), (increase_step g1), (increase_step b1).
    split; [apply increase_body_in_step; exact Ht|].
    destruct Ht as [[(Br & Bg & Bb) _] _].
    pose proof (increase_step_grows r1 Br). pose proof (increase_step_grows g1 Bg).
    pose proof (increase_step_grows b1 Bb).
    repeat (split; [lia|]).
    intros Hfg. destruct (Hnw Hfg) as [H'|[H'|H']];
      [left|right; left|right; right]; apply increase_step_below; lia.
  - exists (red_byte (rgba fg)), (green_byte (rgba fg)), (blue_byte (rgba fg)).
    split; [apply loop_init_in_step|].
    repeat (split; [lia|]). apply is_white_bytes.
Qed.

Lemma increaseLuminance_brightens_witness :
  @increaseLuminance Sample.engine 300 black gray100 4.5%float
  = Some {| css := "#818181"; rgba := pack 129 129 129 255 |}
  /\ red_byte (rgba gray100) <= red_byte (pack 129 129 129 255).
Proof.
  assert (H : @increaseLuminance Sample.engine 300 black gray100 4.5%float
              = Some {| css := "#818181"; rgba := pack 129 129 129 255 |})
    by (vm_compute; reflexivity).
  split; [exact H|].
  apply (@increaseLuminance_brightens Sample.engine 300 black gray100 _ 4.5%float H).
Defined.

(** ** Comparing numbers *)

Lemma SFcompare_antisym (x y : spec_float) :
  SFcompare y x = option_map CompOpp (SFcompare x y).
Proof.
  destruct x as [sx|sx| |sx mx ex], y as [sy|sy| |sy my ey]; simpl;
    try reflexivity; try (destruct sx; reflexivity); try (destruct sy; reflexivity);
    try (destruct sx, sy; reflexivity).
  destruct sx, sy; try reflexivity; rewrite (Z.compare_antisym ex ey);
    destruct (ex ?= ey); simpl; try reflexivity.
  - rewrite CompOpp_involutive, (Pos.compare_cont_antisym my mx Eq). reflexivity.
  - rewrite (Pos.compare_cont_antisym mx my Eq). reflexivity.
Qed.

Lemma ltb_antisym (x y : number) : (x <? y)%float = true -> (y <? x)%float = false.
Proof.
  rewrite !FloatAxioms.ltb_spec. unfold SFltb. rewrite (SFcompare_antisym (Prim2SF x) (Prim2SF y)).
  destruct (SFcompare (Prim2SF x) (Prim2SF y)) as [[]|]; simpl; congruence.
Qed.

Lemma is_nan_spec (x : number) : is_nan x = true <-> Prim2SF x = S754_nan.
Proof.
  unfold is_nan. rewrite FloatAxioms.eqb_spec. unfold SFeqb.
  destruct (Prim2SF x) as [s|s| |s m e]; simpl.
  - split; discriminate.
  - destruct s; split; discriminate.
  - split; reflexivity.
  - destruct s; rewrite Z.compare_refl, Pos.compare_cont_refl; simpl; split; discriminate.
Qed.

Lemma compare_numbers (x y : number) :
  is_nan x = false -> is_nan y = false ->
  exists c, SFcompare (Prim2SF x) (Prim2SF y) = Some c.
Proof.
  intros Hx Hy.
  assert (Hx' : Prim2SF x <> S754_nan) by (rewrite <- is_nan_spec; congruence).
  assert (Hy' : Prim2SF y <> S754_nan) by (rewrite <- is_nan_spec; congruence).
  destruct (Prim2SF x) as [sx|sx| |sx mx ex], (Prim2SF y) as [sy|sy| |sy my ey];
    simpl; try congruence; eauto.
Qed.

(** On numbers that are not NaN, [x < y] fails exactly when [y <= x]. *)
Lemma ltb_false_leb (x y : number) :
  is_nan x = false -> is_nan y = false ->
  ((x <? y)%float = false <-> (y <=? x)%float = true).
Proof.
  intros Hx Hy. destruct (compare_numbers x y Hx Hy) as [c Hc].
  rewrite FloatAxioms.ltb_spec, FloatAxioms.leb_spec. unfold SFltb, SFleb.
  rewrite (SFcompare_antisym (Prim2SF x) (Prim2SF y)), Hc.
  destruct c; simpl; split; congruence.
Qed.

(** A comparison with NaN fails. *)
Lemma ltb_nan_r (x : number) : (x <? nan)%float = false.
Proof.
  rewrite FloatAxioms.ltb_spec. unfold SFltb. change (Prim2SF nan) with S754_nan.
  destruct (Prim2SF x) as [s|s| |s m e]; reflexivity.
Qed.

Lemma leb_nan_l (x : number) : (nan <=? x)%float = false.
Proof.
  rewrite FloatAxioms.leb_spec. unfold SFleb. change (Prim2SF nan) with S754_nan. reflexivity.
Qed.

(** Numbers that compare equal add up to the same sum with a number that is
    finite and not zero. *)
Lemma add_equal_numbers (x y c : number) (s : bool) (m : positive) (e : Z) :
  Prim2SF c = S754_finite s m e ->
  SFcompare (Prim2SF x) (Prim2SF y) = Some Eq -> (x + c = y + c)%float.
Proof.
  intros Hc Heq. apply Prim2SF_inj. rewrite !FloatAxioms.add_spec, Hc.
  destruct (Prim2SF x) as [[]|[]| |[] mx ex], (Prim2SF y) as [[]|[]| |[] my ey];
    simpl in Heq; try discriminate Heq; try reflexivity;
    destruct (ex ?= ey) eqn:He; try discriminate Heq;
    apply Z.compare_eq in He; subst ey;
    destruct (Pos.compare_cont Eq mx my) eqn:Hm; try discriminate Heq;
    apply Pos.compare_eq in Hm; subst my; reflexivity.
Qed.

(** ** The contrast ratio *)

Lemma SFcompare_None (x y : spec_float) :
  SFcompare x y = None -> x = S754_nan \/ y = S754_nan.
Proof.
  destruct x as [[]|[]| |[] mx ex], y as [[]|[]| |[] my ey]; simpl;
    intros H; try discriminate H; auto.
Qed.

Lemma div_nan_l (x y : number) : Prim2SF x = S754_nan -> (x / y)%float = nan.
Proof.
  intros Hx. apply Prim2SF_inj. rewrite FloatAxioms.div_spec, Hx. reflexivity.
Qed.

Lemma div_nan_r (x y : number) : Prim2SF y = S754_nan -> (x / y)%float = nan.
Proof.
  intros Hy. apply Prim2SF_inj. rewrite FloatAxioms.div_spec, Hy.
  destruct (Prim2SF x) as [[]|[]| |[] mx ex]; reflexivity.
Qed.

Lemma add_nan_l (x c : number) : Prim2SF x = S754_nan -> Prim2SF (x + c)%float = S754_nan.
Proof. intros Hx. rewrite FloatAxioms.add_spec, Hx. reflexivity. Qed.

(** X8. [contrastRatio] gives the same number whichever way round its two
    arguments are, for all numbers, NaN and the infinities included. *)
Theorem contrastRatio_symmetric (l1 l2 : number) :
  contrastRatio l1 l2 = contrastRatio l2 l1.
Proof.
  unfold contrastRatio.
  destruct (l1 <? l2)%float eqn:H12; [now rewrite (ltb_antisym _ _ H12)|].
  destruct (l2 <? l1)%float eqn:H21; [reflexivity|].
  rewrite FloatAxioms.ltb_spec in H12, H21. unfold SFltb in H12, H21.
  rewrite (SFcompare_antisym (Prim2SF l1) (Prim2SF l2)) in H21.
  destruct (SFcompare (Prim2SF l1) (Prim2SF l2)) as [[]|] eqn:Hc;
    try discriminate H12; try discriminate H21.
  - rewrite (add_equal_numbers l1 l2 0.05%float false 7205759403792794 (-57) eq_refl Hc).
    reflexivity.
  - apply SFcompare_None in Hc as [Hn|Hn].
    + rewrite (div_nan_l _ _ (add_nan_l l1 0.05%float Hn)).
      now rewrite (div_nan_r _ _ (add_nan_l l1 0.05%float Hn)).
    + rewrite (div_nan_r _ _ (add_nan_l l2 0.05%float Hn)).
      now rewrite (div_nan_l _ _ (add_nan_l l2 0.05%float Hn)).
Qed.

(** ** The decision of [ensureContrastRatio] *)

Section Decision.

Context `{E : Engine}.

(** The luminance wrapper reads the red, green and blue bytes of the colour
    whose alpha byte was shifted out. *)
Lemma rgbRelativeLuminance_bytes (v : Z) :
  rgbRelativeLuminance (shr v 8)
  = rgbRelativeLuminance2 (of_Z (red_byte v)) (of_Z (green_byte v)) (of_Z (blue_byte v)).
Proof.
  unfold rgbRelativeLuminance.
  destruct (shr8_bytes v) as (-> & -> & ->). reflexivity.
Qed.

End Decision.

(** X7. The luminance wrapper, called as [rgbRelativeLuminance(rgba >> 8)],
    is [rgbRelativeLuminance2] of the red, green and blue bytes of [rgba] in
    this order, whatever the alpha byte and also when [rgba >> 8] is negative
    (a red byte of 128 or more). *)
Theorem rgbRelativeLuminance_reads_bytes `{E : Engine} (v : Z) :
  rgbRelativeLuminance (shr v 8)
  = rgbRelativeLuminance2 (of_Z (red_byte v)) (of_Z (green_byte v)) (of_Z (blue_byte v))
  /\ (2 ^ 31 <= v < 2 ^ 32 -> shr v 8 < 0).
Proof.
  split; [apply rgbRelativeLuminance_bytes|].
  intros Hv. unfold shr. rewrite Z.shiftr_div_pow2 by lia.
  assert (Hw : wrap_int32 v = v - 2 ^ 32).
  { unfold wrap_int32. replace (v + 2 ^ 31) with (v - 2 ^ 31 + 1 * 2 ^ 32) by lia.
    rewrite Z.mod_add, Z.mod_small by lia. lia. }
  rewrite Hw. apply Z.div_lt_upper_bound; lia.
Qed.

Lemma rgbRelativeLuminance_reads_bytes_witness :
  shr (rgba white) 8 < 0.
Proof.
  apply (proj2 (@rgbRelativeLuminance_reads_bytes Sample.engine (rgba white))).
  vm_compute. split; [discriminate|reflexivity].
Defined.

(** X11. [ensureContrastRatio] returns [undefined] exactly when the comparison
    [cr < ratio] fails, [cr] being the contrast of the two luminances in the
    canonical byte order; for numbers that are not NaN this is [ratio <= cr],
    and a NaN ratio always gives [undefined].  When the comparison holds the
    result is that of [reduceLuminance] if the foreground's luminance is below
    the background's, and that of [increaseLuminance] otherwise. *)
Theorem ensureContrastRatio_decision `{E : Engine}
  (fuel : nat) (bg fg : IColor) (ratio : number) :
  let bgL := rgbRelativeLuminance2 (of_Z (red_byte (rgba bg))) (of_Z (green_byte (rgba bg)))
                                   (of_Z (blue_byte (rgba bg))) in
  let fgL := rgbRelativeLuminance2 (of_Z (red_byte (rgba fg))) (of_Z (green_byte (rgba fg)))
                                   (of_Z (blue_byte (rgba fg))) in
  let c := contrastRatio bgL fgL in
  (ensureContrastRatio fuel bg fg ratio = Some None <-> (c <? ratio)%float = false)
  /\ (is_nan c = false -> is_nan ratio = false ->
      (ensureContrastRatio fuel bg fg ratio = Some None <-> (ratio <=? c)%float = true))
  /\ ensureContrastRatio fuel bg fg nan = Some None
  /\ ((c <? ratio)%float = true ->
      ensureContrastRatio fuel bg fg ratio
      = option_map Some (if (fgL <? bgL)%float then reduceLuminance fuel bg fg ratio
                         else increaseLuminance fuel bg fg ratio)).
Proof.
  intros bgL fgL c.
  assert (Hunfold : forall ratio,
            ensureContrastRatio fuel bg fg ratio
            = if (c <? ratio)%float
              then if (fgL <? bgL)%float
                   then option_map Some (reduceLuminance fuel bg fg ratio)
                   else option_map Some (increaseLuminance fuel bg fg ratio)
              else Some None).
  { intros ratio'. unfold ensureContrastRatio.
    rewrite !rgbRelativeLuminance_bytes. reflexivity. }
  assert (Hiff : ensureContrastRatio fuel bg fg ratio = Some None
                 <-> (c <? ratio)%float = false).
  { rewrite Hunfold. destruct (c <? ratio)%float.
    - split; [|discriminate].
      destruct (fgL <? bgL)%float;
        [destruct (reduceLuminance fuel bg fg ratio)
        |destruct (increaseLuminance fuel bg fg ratio)]; discriminate.
    - split; reflexivity. }
  split; [exact Hiff|]. split.
  { intros Hc Hr. rewrite Hiff. apply ltb_false_leb; assumption. }
  split.
  { rewrite Hunfold, ltb_nan_r. reflexivity. }
  intros Hlt. rewrite Hunfold, Hlt. destruct (fgL <? bgL)%float; reflexivity.
Qed.

Lemma ensureContrastRatio_decision_witness :
  @ensureContrastRatio Sample.engine 300 black gray100 4.5%float
  = option_map Some (@increaseLuminance Sample.engine 300 black gray100 4.5%float).
Proof.
  pose proof (@ensureContrastRatio_decision Sample.engine 300 black gray100 4.5%float) as H.
  cbv zeta in H. destruct H as (_ & _ & _ & H).
  rewrite H; [|vm_compute; reflexivity].
  replace (_ <? _)%float with false by (vm_compute; reflexivity). reflexivity.
Defined.

(** X12. [ensureContrastRatio] returns whenever the contrast test fails or the
    foreground's luminance is below the background's, given 255 iterations or
    more; only its increase path can fail to return. *)
Theorem ensureContrastRatio_returns `{E : Engine}
  (fuel : nat) (bg fg : IColor) (ratio : number) :
  (255 <= fuel)%nat ->
  ensureContrastRatio fuel bg fg ratio = None ->
  let bgL := rgbRelativeLuminance (shr (rgba bg) 8) in
  let fgL := rgbRelativeLuminance (shr (rgba fg) 8) in
  (contrastRatio bgL fgL <? ratio)%float = true /\ (fgL <? bgL)%float = false
  /\ increaseLuminance fuel bg fg ratio = None.
Proof.
  intros Hfuel Hnone bgL fgL. unfold ensureContrastRatio in Hnone.
  fold bgL fgL in Hnone.
  destruct (contrastRatio bgL fgL <? ratio)%float; [|discriminate Hnone].
  destruct (fgL <? bgL)%float.
  - destruct (reduceLuminance_returns bg fg ratio fuel Hfuel) as (s & _ & _ & _ & Hret & _).
    rewrite Hret in Hnone. discriminate Hnone.
  - destruct (increaseLuminance fuel bg fg ratio); [discriminate Hnone|auto].
Qed.

Lemma ensureContrastRatio_returns_witness :
  @increaseLuminance Sample.engine 300 black gray128 25%float = None.
Proof.
  apply (@ensureContrastRatio_returns Sample.engine 300 black gray128 25%float);
    [lia|vm_compute; reflexivity].
Defined.

(** X13. The three contrast functions read only the red, green and blue bytes of
    their colour arguments: the alpha bytes change nothing. *)
Theorem contrast_functions_ignore_alpha `{E : Engine}
  (fuel : nat) (bg1 bg2 fg1 fg2 : IColor) (ratio : number) :
  channels bg1 = channels bg2 -> channels fg1 = channels fg2 ->
  ensureContrastRatio fuel bg1 fg1 ratio = ensureContrastRatio fuel bg2 fg2 ratio
  /\ reduceLuminance fuel bg1 fg1 ratio = reduceLuminance fuel bg2 fg2 ratio
  /\ increaseLuminance fuel bg1 fg1 ratio = increaseLuminance fuel bg2 fg2 ratio.
Proof.
  unfold channels. intros Hbg Hfg.
  injection Hbg as Hbr Hbg Hbb. injection Hfg as Hfr Hfg Hfb.
  assert (Hred : reduceLuminance fuel bg1 fg1 ratio = reduceLuminance fuel bg2 fg2 ratio).
  { unfold reduceLuminance, loop_init.
    rewrite !red_byte_js, !green_byte_js, !blue_byte_js.
    now rewrite Hbr, Hbg, Hbb, Hfr, Hfg, Hfb. }
  assert (Hinc : increaseLuminance fuel bg1 fg1 ratio = increaseLuminance fuel bg2 fg2 ratio).
  { unfold increaseLuminance, loop_init.
    rewrite !red_byte_js, !green_byte_js, !blue_byte_js.
    now rewrite Hbr, Hbg, Hbb, Hfr, Hfg, Hfb. }
  split; [|split; assumption].
  unfold ensureContrastRatio. rewrite !rgbRelativeLuminance_bytes.
  now rewrite Hred, Hinc, Hbr, Hbg, Hbb, Hfr, Hfg, Hfb.
Qed.

Lemma contrast_functions_ignore_alpha_witness :
  @ensureContrastRatio Sample.engine 300 black gray100 4.5%float
  = @ensureContrastRatio Sample.engine 300
      {| css := "#000000"; rgba := pack 0 0 0 0 |}
      {| css := "#646464"; rgba := pack 100 100 100 17 |} 4.5%float.
Proof.
  apply (@contrast_functions_ignore_alpha Sample.engine 300 black
           {| css := "#000000"; rgba := pack 0 0 0 0 |} gray100
           {| css := "#646464"; rgba := pack 100 100 100 17 |} 4.5%float); reflexivity.
Defined.

(** ** Packing and unpacking *)

(** X2. [toRgba] of four bytes is the unsigned 32-bit value that holds them
    from the most to the least significant byte (it is not negative even when
    the red byte is 128 or more), and the reads [(rgba >> k) & 0xFF] give each
    byte back; whatever numbers it is given, its result is an unsigned 32-bit
    value. *)
Theorem toRgba_packs (r g b a : Z) :
  0 <= r <= 255 -> 0 <= g <= 255 -> 0 <= b <= 255 -> 0 <= a <= 255 ->
  let v := toRgba (of_Z r) (of_Z g) (of_Z b) (of_Z a) in
  v = r * 2 ^ 24 + g * 2 ^ 16 + b * 2 ^ 8 + a
  /\ band (shr v 24) 255 = r /\ band (shr v 16) 255 = g
  /\ band (shr v 8) 255 = b /\ band v 255 = a
  /\ forall x y z w : number, 0 <= toRgba x y z w < 2 ^ 32.
Proof.
  intros Hr Hg Hb Ha v. subst v. rewrite toRgba_bytes by assumption.
  rewrite red_byte_js, green_byte_js, blue_byte_js, alpha_byte_js.
  destruct (pack_bytes r g b a Hr Hg Hb Ha) as (Pr & Pg & Pb & Pa).
  repeat split; try assumption;
    unfold toRgba, ushr0, wrap_uint32; apply Z.mod_pos_bound; lia.
Qed.

Lemma toRgba_packs_witness :
  toRgba (of_Z 200) (of_Z 100) (of_Z 50) (of_Z 255) = 3362009855.
Proof.
  pose proof (toRgba_packs 200 100 50 255 ltac:(lia) ltac:(lia) ltac:(lia) ltac:(lia)) as H.
  cbv zeta in H. destruct H as [H _]. rewrite H. reflexivity.
Defined.

(** ** Green and blue in the loops *)

Lemma while_conjugate {S : Type} (cond1 cond2 : S -> bool) (body1 body2 : S -> S)
  (f : S -> S) :
  (forall s, cond2 (f s) = cond1 s) -> (forall s, body2 (f s) = f (body1 s)) ->
  forall (fuel : nat) (s : S),
    while fuel cond2 body2 (f s) = option_map f (while fuel cond1 body1 s).
Proof.
  intros Hcond Hbody. induction fuel as [|n IH]; intros s; simpl; rewrite Hcond;
    destruct (cond1 s); try reflexivity.
  rewrite Hbody. apply IH.
Qed.

Section Exchange.

Context `{E : Engine}.

Lemma reduce_cond_swap (ratio : number) (s : vars) :
  reduce_cond ratio (swap_gb s) = reduce_cond ratio s.
Proof.
  unfold reduce_cond, swap_gb; cbn [fgR fgG fgB cr].
  destruct (cr s <? ratio)%float, (0 <? fgR s)%float, (0 <? fgG s)%float,
    (0 <? fgB s)%float; reflexivity.
Qed.

Lemma increase_cond_swap (ratio : number) (s : vars) :
  increase_cond ratio (swap_gb s) = increase_cond ratio s.
Proof.
  unfold increase_cond, swap_gb; cbn [fgR fgG fgB cr].
  destruct (cr s <? ratio)%float, (fgR s <? 255)%float, (fgG s <? 255)%float,
    (fgB s <? 255)%float; reflexivity.
Qed.

Lemma reduce_body_swap (bgR bgG bgB : number) (s : vars) :
  reduce_body bgR bgG bgB (swap_gb s) = swap_gb (reduce_body_canonical bgR bgG bgB s).
Proof. reflexivity. Qed.

Lemma increase_body_swap (bgR bgG bgB : number) (s : vars) :
  increase_body bgR bgG bgB (swap_gb s) = swap_gb (increase_body_canonical bgR bgG bgB s).
Proof. reflexivity. Qed.

Lemma exchange_gb_bytes (c : IColor) :
  red_byte (rgba (exchange_gb c)) = red_byte (rgba c)
  /\ green_byte (rgba (exchange_gb c)) = blue_byte (rgba c)
  /\ blue_byte (rgba (exchange_gb c)) = green_byte (rgba c).
Proof.
  unfold exchange_gb; cbn [rgba].
  destruct (pack_bytes (red_byte (rgba c)) (blue_byte (rgba c)) (green_byte (rgba c))
              (alpha_byte (rgba c))) as (Pr & Pg & Pb & _);
    try apply byte_range. auto.
Qed.

Lemma loop_init_swap (bgR bgG bgB : number) (fg : IColor) :
  loop_init bgR bgG bgB fg = swap_gb (loop_init_canonical bgR bgG bgB (exchange_gb fg)).
Proof.
  unfold loop_init, loop_init_canonical, swap_gb, canonical_cr; cbn [fgR fgG fgB cr].
  rewrite !red_byte_js, !green_byte_js, !blue_byte_js.
  destruct (exchange_gb_bytes fg) as (-> & -> & ->). reflexivity.
Qed.

Lemma swap_gb_holds (s : vars) (r g b : Z) : holds s r g b -> holds (swap_gb s) r b g.
Proof. unfold holds, swap_gb; cbn [fgR fgG fgB]. tauto. Qed.

Lemma reduce_canonical_holds (bgR bgG bgB ratio : number) (fuel : nat) (fg : IColor)
  (s : vars) :
  while fuel (reduce_cond ratio) (reduce_body_canonical bgR bgG bgB)
    (loop_init_canonical bgR bgG bgB fg) = Some s ->
  exists r g b, holds s r g b.
Proof.
  intros Hw.
  apply (while_exit _ _ (fun s => exists r g b, holds s r g b)) in Hw as [H _]; [exact H| |].
  - intros t (r & g & b & [(Hr & Hg & Hb) (Er & Eg & Eb)]) _.
    exists (reduce_step r), (reduce_step g), (reduce_step b).
    unfold holds, reduce_body_canonical; cbn [fgR fgG fgB].
    rewrite Er, Eg, Eb, !reduce_channel by assumption.
    pose proof (reduce_step_range r Hr). pose proof (reduce_step_range g Hg).
    pose proof (reduce_step_range b Hb). repeat split; lia.
  - exists (red_byte (rgba fg)), (green_byte (rgba fg)), (blue_byte (rgba fg)).
    apply (loop_init_holds bgR bgG bgB fg).
Qed.

Lemma increase_canonical_holds (bgR bgG bgB ratio : number) (fuel : nat) (fg : IColor)
  (s : vars) :
  while fuel (increase_cond ratio) (increase_body_canonical bgR bgG bgB)
    (loop_init_canonical bgR bgG bgB fg) = Some s ->
  exists r g b, holds s r g b.
Proof.
  intros Hw.
  apply (while_exit _ _ (fun s => exists r g b, holds s r g b)) in Hw as [H _]; [exact H| |].
  - intros t (r & g & b & [(Hr & Hg & Hb) (Er & Eg & Eb)]) _.
    exists (increase_step r), (increase_step g), (increase_step b).
    unfold holds, increase_body_canonical; cbn [fgR fgG fgB].
    rewrite Er, Eg, Eb, !increase_channel by assumption.
    pose proof (increase_step_range r Hr). pose proof (increase_step_range g Hg).
    pose proof (increase_step_range b Hb). repeat split; lia.
  - exists (red_byte (rgba fg)), (green_byte (rgba fg)), (blue_byte (rgba fg)).
    apply (loop_init_holds bgR bgG bgB fg).
Qed.

Lemma channels_of_swapped (s : vars) (r g b : Z) :
  holds s r g b ->
  channels (color_of_vars (swap_gb s)) = channels_exchanged (color_of_vars s).
Proof.
  intros Hs. unfold channels, channels_exchanged.
  destruct (color_of_vars_channels s r g b Hs) as (-> & -> & ->).
  destruct (color_of_vars_channels (swap_gb s) r b g (swap_gb_holds s r g b Hs))
    as (-> & -> & ->). reflexivity.
Qed.

End Exchange.

(** X16. In both loops the foreground's green and blue channels change places in
    every luminance call, the one before the loop included: the channels of
    the colour [reduceLuminance] (or [increaseLuminance]) returns are those,
    green and blue exchanged, that the same function with all its luminance
    calls in the order (R, G, B) returns for the foreground with green and
    blue exchanged; one returns exactly when the other does. *)
Theorem loops_exchange_green_and_blue `{E : Engine}
  (fuel : nat) (bg fg : IColor) (ratio : number) :
  option_map channels (reduceLuminance fuel bg fg ratio)
  = option_map channels_exchanged
      (reduceLuminance_canonical fuel bg (exchange_gb fg) ratio)
  /\ option_map channels (increaseLuminance fuel bg fg ratio)
     = option_map channels_exchanged
         (increaseLuminance_canonical fuel bg (exchange_gb fg) ratio).
Proof.
  split.
  - unfold reduceLuminance, reduceLuminance_canonical.
    set (bgR := of_Z (band (shr (rgba bg) 24) 255)).
    set (bgG := of_Z (band (shr (rgba bg) 16) 255)).
    set (bgB := of_Z (band (shr (rgba bg) 8) 255)).
    rewrite loop_init_swap.
    rewrite (while_conjugate (reduce_cond ratio) (reduce_cond ratio)
               (reduce_body_canonical bgR bgG bgB) (reduce_body bgR bgG bgB) swap_gb
               (reduce_cond_swap ratio) (reduce_body_swap bgR bgG bgB)).
    destruct (while fuel _ (reduce_body_canonical bgR bgG bgB) _) as [s|] eqn:Hw;
      [|reflexivity].
    cbn [option_map]. f_equal.
    destruct (reduce_canonical_holds _ _ _ _ _ _ _ Hw) as (r & g & b & Hs).
    apply (channels_of_swapped s r g b Hs).
  - unfold increaseLuminance, increaseLuminance_canonical.
    set (bgR := of_Z (band (shr (rgba bg) 24) 255)).
    set (bgG := of_Z (band (shr (rgba bg) 16) 255)).
    set (bgB := of_Z (band (shr (rgba bg) 8) 255)).
    rewrite loop_init_swap.
    rewrite (while_conjugate (increase_cond ratio) (increase_cond ratio)
               (increase_body_canonical bgR bgG bgB) (increase_body bgR bgG bgB) swap_gb
               (increase_cond_swap ratio) (increase_body_swap bgR bgG bgB)).
    destruct (while fuel _ (increase_body_canonical bgR bgG bgB) _) as [s|] eqn:Hw;
      [|reflexivity].
    cbn [option_map]. f_equal.
    destruct (increase_canonical_holds _ _ _ _ _ _ _ Hw) as (r & g & b & Hs).
    apply (channels_of_swapped s r g b Hs).
Qed.

(** ** Rounding a sum *)

Lemma shr_1_m (mrs : shr_record) : 0 <= shr_m mrs -> shr_m (shr_1 mrs) = shr_m mrs / 2.
Proof.
  destruct mrs as [m r s]. cbn [shr_m]. intros Hm.
  destruct m as [|[p|p|]|p]; cbn [shr_1 shr_m]; try lia;
    try rewrite Pos2Z.inj_xI; try rewrite Pos2Z.inj_xO;
    Z.to_euclidean_division_equations; lia.
Qed.

Lemma iter_shr_1_m (q : positive) :
  forall mrs, 0 <= shr_m mrs ->
    shr_m (iter_pos shr_1 q mrs) = shr_m mrs / 2 ^ Z.pos q.
Proof.
  induction q as [q IH|q IH|]; intros mrs Hm; cbn [iter_pos].
  - assert (H1 : 0 <= shr_m (shr_1 mrs)).
    { rewrite shr_1_m by exact Hm. apply Z.div_pos; lia. }
    assert (H2 : 0 <= shr_m (iter_pos shr_1 q (shr_1 mrs))).
    { rewrite IH by exact H1. apply Z.div_pos; [lia|apply Z.pow_pos_nonneg; lia]. }
    assert (Hp : 0 < 2 ^ Z.pos q) by (apply Z.pow_pos_nonneg; lia).
    assert (Hpow : 2 ^ Z.pos q~1 = 2 * 2 ^ Z.pos q * 2 ^ Z.pos q).
    { change 2 with (2 ^ 1) at 2. rewrite <- !Z.pow_add_r by lia. f_equal. lia. }
    rewrite IH, IH, shr_1_m, Hpow by assumption.
    rewrite !Z.div_div by lia. f_equal. ring.
  - assert (H2 : 0 <= shr_m (iter_pos shr_1 q mrs)).
    { rewrite IH by exact Hm. apply Z.div_pos; [lia|apply Z.pow_pos_nonneg; lia]. }
    assert (Hp : 0 < 2 ^ Z.pos q) by (apply Z.pow_pos_nonneg; lia).
    assert (Hpow : 2 ^ Z.pos q~0 = 2 ^ Z.pos q * 2 ^ Z.pos q).
    { rewrite <- Z.pow_add_r by lia. f_equal. lia. }
    rewrite IH, IH, Hpow by assumption.
    rewrite !Z.div_div by lia. f_equal.
  - apply shr_1_m. exact Hm.
Qed.

Lemma Zdigits2_log2 (m : Z) : 0 < m -> Zdigits2 m = Z.log2 m + 1.
Proof.
  destruct m as [|p|p]; try lia. intros _. apply digits2_pos_log2.
Qed.

Lemma shr_m_shr (m e n : Z) (l : location) :
  0 <= m -> 0 <= n ->
  shr_m (fst (SpecFloat.shr (shr_record_of_loc m l) e n)) = m / 2 ^ n
  /\ snd (SpecFloat.shr (shr_record_of_loc m l) e n) = e + n.
Proof.
  intros Hm Hn.
  assert (Hrec : shr_m (shr_record_of_loc m l) = m) by (destruct l as [|[]]; reflexivity).
  destruct n as [|q|q]; [| |lia]; cbn [SpecFloat.shr fst snd].
  - rewrite Hrec, Z.pow_0_r, Z.div_1_r. lia.
  - rewrite iter_shr_1_m by (rewrite Hrec; exact Hm). rewrite Hrec. auto.
Qed.

Lemma round_nearest_even_range (m : Z) (l : location) :
  m <= round_nearest_even m l <= m + 1.
Proof.
  destruct l as [|[]]; cbn [round_nearest_even]; try lia.
  destruct (Z.even m); lia.
Qed.

(** A positive integer of 53 digits or more whose value lies in the range
    of the normal numbers rounds to a finite positive number. *)
Lemma binary_round_aux_finite (p : positive) (e : Z) :
  53 <= Z.pos (digits2_pos p) -> -1074 <= e -> Z.pos (digits2_pos p) + e <= 1023 ->
  exists m' e', binary_round_aux prec emax false (Z.pos p) e loc_Exact
                = S754_finite false m' e'.
Proof.
  intros Hd He Hup.
  set (d := Z.pos (digits2_pos p)) in *.
  assert (Hlog : Z.log2 (Z.pos p) = d - 1) by (pose proof (digits2_pos_log2 p); lia).
  pose proof (Z.log2_spec (Z.pos p) ltac:(lia)) as Hspec. rewrite Hlog in Hspec.
  replace (Z.succ (d - 1)) with d in Hspec by lia.
  assert (Hpow52 : 2 ^ (d - 1) = 2 ^ 52 * 2 ^ (d - 53)).
  { rewrite <- Z.pow_add_r by lia. f_equal. lia. }
  assert (Hpow53 : 2 ^ d = 2 ^ 53 * 2 ^ (d - 53)).
  { rewrite <- Z.pow_add_r by lia. f_equal. lia. }
  assert (Hpos : 0 < 2 ^ (d - 53)) by (apply Z.pow_pos_nonneg; lia).
  unfold binary_round_aux, shr_fexp.
  cbn [Zdigits2]. fold d.
  assert (Hn : fexp prec emax (d + e) - e = d - 53).
  { unfold fexp, SpecFloat.emin, prec, emax. lia. }
  rewrite Hn.
  destruct (shr_m_shr (Z.pos p) e (d - 53) loc_Exact ltac:(lia) ltac:(lia)) as [Hm1 He1].
  destruct (SpecFloat.shr (shr_record_of_loc (Z.pos p) loc_Exact) e (d - 53))
    as [mrs' e'] eqn:Hshr. cbn [fst snd] in Hm1, He1.
  assert (Hm1r : 2 ^ 52 <= shr_m mrs' < 2 ^ 53).
  { rewrite Hm1. split.
    - apply Z.div_le_lower_bound; lia.
    - apply Z.div_lt_upper_bound; lia. }
  pose proof (round_nearest_even_range (shr_m mrs') (loc_of_shr_record mrs')) as Hm2.
  set (m2 := round_nearest_even (shr_m mrs') (loc_of_shr_record mrs')) in *.
  assert (Hm2r : 2 ^ 52 <= m2 <= 2 ^ 53) by lia.
  assert (Hd2 : Zdigits2 m2 = 53 /\ m2 < 2 ^ 53 \/ Zdigits2 m2 = 54 /\ m2 = 2 ^ 53).
  { rewrite Zdigits2_log2 by lia.
    destruct (Z.eq_dec m2 (2 ^ 53)) as [Heq|Hne].
    - right. rewrite Heq. split; reflexivity.
    - left. split; [|lia].
      assert (Z.log2 m2 = 52); [|lia].
      apply Z.log2_unique; lia. }
  assert (Hn2 : fexp prec emax (Zdigits2 m2 + e') - e' = Zdigits2 m2 - 53).
  { unfold fexp, SpecFloat.emin, prec, emax. lia. }
  rewrite Hn2.
  destruct (shr_m_shr m2 e' (Zdigits2 m2 - 53) loc_Exact ltac:(lia) ltac:(lia))
    as [Hm3 He3].
  destruct (SpecFloat.shr (shr_record_of_loc m2 loc_Exact) e' (Zdigits2 m2 - 53))
    as [mrs'' e''] eqn:Hshr2. cbn [fst snd] in Hm3, He3.
  assert (Hm3r : 0 < shr_m mrs'').
  { rewrite Hm3. destruct Hd2 as [[-> _]|[-> ->]].
    - change (53 - 53) with 0. rewrite Z.pow_0_r, Z.div_1_r. lia.
    - reflexivity. }
  destruct (shr_m mrs'') as [|m3|m3]; try lia.
  replace (e'' <=? emax - prec) with true.
  - eauto.
  - symmetry. apply Z.leb_le. unfold emax, prec. lia.
Qed.

(** The same for any positive integer: fewer than 53 digits are shifted up
    first. *)
Lemma binary_round_finite (p : positive) (e : Z) :
  -1021 <= Z.pos (digits2_pos p) + e <= 1023 -> -1074 <= e ->
  exists m' e', binary_round prec emax false p e = S754_finite false m' e'.
Proof.
  intros Hd He. unfold binary_round.
  assert (Hfexp : fexp prec emax (Z.pos (digits2_pos p) + e)
                  = Z.pos (digits2_pos p) + e - 53).
  { unfold fexp, SpecFloat.emin, prec, emax. lia. }
  rewrite Hfexp. unfold shl_align.
  destruct (Z.pos (digits2_pos p) + e - 53 - e) as [|q|q] eqn:Hq.
  - apply binary_round_aux_finite; lia.
  - apply binary_round_aux_finite; lia.
  - assert (Hdm : Z.pos (digits2_pos (Pos.iter xO p q)) = 53).
    { rewrite iter_xO_digits. lia. }
    rewrite binary_round_aux_exact by lia. eauto.
Qed.

Lemma shl_align_value (m : positive) (e e' : Z) :
  e' <= e -> Z.pos (fst (shl_align m e e')) = Z.pos m * 2 ^ (e - e').
Proof.
  intros Hle. unfold shl_align.
  destruct (e' - e) as [|q|q] eqn:Hq; cbn [fst]; try lia.
  - replace (e - e') with 0 by lia. lia.
  - rewrite iter_xO_pos. f_equal. f_equal. lia.
Qed.

(** What validity says of a finite number. *)
Lemma valid_finite (x : number) (s : bool) (m : positive) (e : Z) :
  Prim2SF x = S754_finite s m e -> Z.pos m < 2 ^ 53 /\ -1074 <= e <= 971.
Proof.
  intros Hx. pose proof (Prim2SF_valid x) as Hv. rewrite Hx in Hv.
  unfold valid_binary, bounded, canonical_mantissa in Hv.
  apply andb_true_iff in Hv as [Hc He]. apply Z.eqb_eq in Hc. apply Z.leb_le in He.
  unfold fexp, SpecFloat.emin, prec, emax in Hc, He.
  pose proof (digits2_pos_log2 m) as Hd.
  pose proof (Z.log2_spec (Z.pos m) ltac:(lia)) as Hspec.
  assert (Hd53 : Z.log2 (Z.pos m) + 1 <= 53) by lia.
  split; [|lia].
  apply Z.lt_le_trans with (2 ^ Z.succ (Z.log2 (Z.pos m))); [lia|].
  apply Z.pow_le_mono_r; lia.
Qed.

(** A number divided by itself is 1 when it is finite and not zero. *)
Lemma div_self (y : number) (s : bool) (m : positive) (e : Z) :
  Prim2SF y = S754_finite s m e -> (y / y)%float = 1%float.
Proof.
  intros Hy. apply Prim2SF_inj. rewrite FloatAxioms.div_spec, Hy.
  unfold SF64div, SFdiv, SFdiv_core_binary.
  replace (Zdigits2 (Z.pos m) + e - (Zdigits2 (Z.pos m) + e)) with 0 by lia.
  rewrite Z.sub_diag.
  change (Z.min (fexp prec emax 0) 0) with (-53). change (0 - -53) with 53.
  cbv iota beta.
  assert (Hdiv : Z.div_eucl (Z.shiftl (Z.pos m) 53) (Z.pos m) = (2 ^ 53, 0)).
  { rewrite Z.shiftl_mul_pow2 by lia.
    pose proof (Z.div_eucl_eq (Z.pos m * 2 ^ 53) (Z.pos m) ltac:(lia)) as Heq.
    pose proof (Z.mod_pos_bound (Z.pos m * 2 ^ 53) (Z.pos m) ltac:(lia)) as Hmod.
    unfold Z.modulo in Hmod.
    destruct (Z.div_eucl (Z.pos m * 2 ^ 53) (Z.pos m)) as [q r].
    assert (q = 2 ^ 53 /\ r = 0) as [-> ->]; [|reflexivity].
    assert (Z.pos m * (2 ^ 53 - q) = r) by lia.
    assert (2 ^ 53 - q = 0) by nia. lia. }
  rewrite Hdiv.
  assert (Hloc : new_location (Z.pos m) 0 = loc_Exact).
  { unfold new_location, new_location_even, new_location_odd.
    destruct (Z.even (Z.pos m)); reflexivity. }
  rewrite Hloc. destruct s; reflexivity.
Qed.

(** The sum of two positive finite numbers, one of them normal, both below
    [2^1022], is a positive finite number. *)
Lemma sum_exponent_bound (x c : number) (mx mc : positive) (ex ec : Z) :
  Prim2SF x = S754_finite false mx ex -> Prim2SF c = S754_finite false mc ec ->
  ex <= 969 -> ec <= 969 -> -1022 <= Z.log2 (Z.pos mc) + ec ->
  exists m e, Prim2SF (x + c)%float = S754_finite false m e.
Proof.
  intros Hx Hc Hex Hec Hnormal.
  destruct (valid_finite x false mx ex Hx) as [Hmx Hexr].
  destruct (valid_finite c false mc ec Hc) as [Hmc Hecr].
  rewrite FloatAxioms.add_spec, Hx, Hc. unfold SF64add, SFadd.
  set (ez := Z.min ex ec).
  cbn [cond_Zopp Z.add binary_normalize].
  pose proof (shl_align_value mx ex ez ltac:(lia)) as HA.
  pose proof (shl_align_value mc ec ez ltac:(lia)) as HC.
  set (a := fst (shl_align mx ex ez)) in *.
  set (k := fst (shl_align mc ec ez)) in *.
  apply binary_round_finite; [|lia].
  rewrite digits2_pos_log2, Pos2Z.inj_add.
  assert (Hpa : 0 < 2 ^ (ex - ez)) by (apply Z.pow_pos_nonneg; lia).
  assert (Hpk : 0 < 2 ^ (ec - ez)) by (apply Z.pow_pos_nonneg; lia).
  split.
  - assert (Hlow : -1022 - ez <= Z.log2 (Z.pos a + Z.pos k)); [|lia].
    apply Z.le_trans with (Z.log2 (Z.pos k)).
    + rewrite HC, Z.log2_mul_pow2 by lia. lia.
    + apply Z.log2_le_mono. lia.
  - assert (Hup : Z.log2 (Z.pos a + Z.pos k) < 54 + (969 - ez)); [|lia].
    apply Z.log2_lt_pow2; [lia|].
    assert (Hle1 : 2 ^ (ex - ez) <= 2 ^ (969 - ez)) by (apply Z.pow_le_mono_r; lia).
    assert (Hle2 : 2 ^ (ec - ez) <= 2 ^ (969 - ez)) by (apply Z.pow_le_mono_r; lia).
    rewrite Z.pow_add_r by lia. rewrite HA, HC.
    assert (H54 : 2 ^ 54 = 2 * 2 ^ 53) by reflexivity.
    nia.
Qed.

(** A number between [0] and [luminance_bound] is a zero or a positive finite
    number of exponent 969 at most. *)
Lemma luminance_cases (x : number) :
  (0 <=? x)%float = true -> (x <=? luminance_bound)%float = true ->
  (exists s, Prim2SF x = S754_zero s)
  \/ (exists m e, Prim2SF x = S754_finite false m e /\ e <= 969).
Proof.
  rewrite !FloatAxioms.leb_spec. unfold SFleb.
  change (Prim2SF 0) with (S754_zero false).
  change (Prim2SF luminance_bound) with (S754_finite false 4503599627370496 969).
  destruct (Prim2SF x) as [s|[]| |[] m e]; cbn [SFcompare];
    intros H0 HB; try discriminate H0; try discriminate HB; eauto.
  right. exists m, e. split; [reflexivity|].
  destruct (Z.compare_spec e 969) as [He|He|He]; try discriminate HB; lia.
Qed.

(** A luminance plus [0.05] is a positive finite number. *)
Lemma luminance_plus_finite (x : number) :
  (0 <=? x)%float = true -> (x <=? luminance_bound)%float = true ->
  exists m e, Prim2SF (x + 0.05)%float = S754_finite false m e.
Proof.
  intros H0 HB.
  destruct (luminance_cases x H0 HB) as [[s Hx]|(m & e & Hx & He)].
  - rewrite FloatAxioms.add_spec, Hx.
    change (Prim2SF 0.05) with (S754_finite false 7205759403792794 (-57)).
    cbn [SF64add SFadd]. eauto.
  - apply (sum_exponent_bound x 0.05%float m 7205759403792794 e (-57) Hx eq_refl He);
      [lia|vm_compute; discriminate].
Qed.

Lemma eqb_compare (x y : number) :
  (x =? y)%float = true -> SFcompare (Prim2SF x) (Prim2SF y) = Some Eq.
Proof.
  rewrite FloatAxioms.eqb_spec. unfold SFeqb.
  destruct (SFcompare (Prim2SF x) (Prim2SF y)) as [[]|]; congruence.
Qed.

(** X10. [contrastRatio] of two equal luminances is exactly 1, for every
    luminance from 0 up to [2^1021] (the two zeros count as equal). *)
Theorem contrastRatio_equal_luminances (l1 l2 : number) :
  (0 <=? l1)%float = true -> (l1 <=? luminance_bound)%float = true ->
  (l1 =? l2)%float = true ->
  contrastRatio l1 l2 = 1%float.
Proof.
  intros H0 HB Heq. apply eqb_compare in Heq.
  unfold contrastRatio.
  replace (l1 <? l2)%float with false
    by (rewrite FloatAxioms.ltb_spec; unfold SFltb; now rewrite Heq).
  rewrite <- (add_equal_numbers l1 l2 0.05%float false 7205759403792794 (-57) eq_refl Heq).
  destruct (luminance_plus_finite l1 H0 HB) as (m & e & Hy).
  apply (div_self _ false m e Hy).
Qed.

Lemma contrastRatio_equal_luminances_witness :
  contrastRatio 0.5%float 0.5%float = 1%float.
Proof.
  apply (contrastRatio_equal_luminances 0.5%float 0.5%float); reflexivity.
Defined.

(** X9. On numbers that are not NaN, [contrastRatio] is the larger argument
    plus 0.05 over the smaller argument plus 0.05. *)
Theorem contrastRatio_max_over_min (l1 l2 : number) :
  is_nan l1 = false -> is_nan l2 = false ->
  contrastRatio l1 l2 = ((Math_max l1 l2 + 0.05) / (Math_min l1 l2 + 0.05))%float.
Proof.
  intros H1 H2. unfold contrastRatio, Math_max, Math_min. rewrite H1, H2. cbn [orb].
  destruct (l1 <? l2)%float eqn:H12; [reflexivity|].
  destruct (l2 <? l1)%float eqn:H21; [reflexivity|].
  destruct (get_sign l1); [|reflexivity].
  destruct (compare_numbers l1 l2 H1 H2) as [c Hc].
  rewrite FloatAxioms.ltb_spec in H12, H21. unfold SFltb in H12, H21.
  rewrite (SFcompare_antisym (Prim2SF l1) (Prim2SF l2)), Hc in H21. rewrite Hc in H12.
  destruct c; try discriminate H12; try discriminate H21.
  now rewrite (add_equal_numbers l1 l2 0.05%float false 7205759403792794 (-57) eq_refl Hc).
Qed.

Lemma contrastRatio_max_over_min_witness :
  contrastRatio 0%float 1%float = ((1 + 0.05) / (0 + 0.05))%float
  /\ contrastRatio 0%float 1%float = 21%float.
Proof.
  split; [|reflexivity].
  rewrite (contrastRatio_max_over_min 0%float 1%float); reflexivity.
Defined.
